(** * spdz-client-lib: the aggregated SPDZ REST API

    A shallow embedding of [src/rest_api/SpdzApiAggregate.js] and proofs about
    its six exported functions: [connectToSPDZ], [checkProxies],
    [disconnectFromSPDZ], [consumeDataFromProxies], [sendInputsToProxies] and
    [allProxiesConnected].

    The JavaScript is single threaded: the body of each function runs to its
    end first (the synchronous phase, which reads the client id store and
    starts one transport call per proxy), and the [then]/[catch] handlers run
    later, one at a time, in the order in which the transport calls complete.
    The embedding keeps the two phases apart: a function returns the promises
    it built, and [exec] runs their handlers along a completion order. *)

From Stdlib.Init Require Import Byte.
From stdpp Require Import base option list strings gmap.

Open Scope string_scope.
Open Scope list_scope.

(** ** JavaScript values the module handles *)

(** A string-valued expression; [None] is [undefined] (an absent property, an
    omitted optional argument, a missing store entry). *)
Abbreviation JsString := (option string).

(** A plain object with string-valued properties, such as
    [{url: 'http://spdzproxy0', encryptionKey: 'abc'}]. *)
Abbreviation JsObject := (gmap string string).

(** A [Uint8Array]. *)
Abbreviation Bytes := (list byte).

(** What a template literal prints for a string-valued expression. *)
Definition template (s : JsString) : string :=
  match s with
  | Some v => v
  | None => "undefined"
  end.

(** The values a property read or a literal can give in
    [allProxiesConnected]. *)
Inductive JsValue :=
| JsUndefined
| JsNumber (n : nat).

(** Strict equality [===] on those values. *)
Definition strict_equal (a b : JsValue) : bool :=
  match a, b with
  | JsUndefined, JsUndefined => true
  | JsNumber n, JsNumber m => Nat.eqb n m
  | _, _ => false
  end.

(** [array.length]. *)
Definition Array_length {A} (l : list A) : JsValue := JsNumber (length l).

(** [array.size]: arrays have a [length] but no [size] property, neither of
    their own nor on [Array.prototype], so the read gives [undefined]. *)
Definition Array_size {A} (l : list A) : JsValue := JsUndefined.

(** ** Errors *)

Inductive ErrorClass :=
| PlainError        (* Error, and the TypeError of a failed fetch *)
| NoContentError.   (* no data is available to consume yet *)

(** An error object: its class, its [message], and the [message] of its
    [reason] when a [reason] is attached. *)
Record JsError := mkJsError {
  err_class : ErrorClass;
  err_message : string;
  err_reason : option string
}.

(** [new Error(message)]. *)
Definition new_Error (message : string) : JsError :=
  mkJsError PlainError message None.

(** How a promise settles. *)
Inductive Settled (A : Type) :=
| Fulfilled (a : A)
| Rejected (e : JsError).
Arguments Fulfilled {A} a.
Arguments Rejected {A} e.

(** ** ProxyStatusCodes *)

(** Modelled from the spec: [rest_api/ProxyStatusCodes.js] is not among the
    sources; the spec gives the status model as the closed enumeration
    Connected, Disconnected, Failure. *)
Inductive ProxyStatusCode :=
| Connected
| Disconnected
| Failure.

Definition status_eqb (a b : ProxyStatusCode) : bool :=
  match a, b with
  | Connected, Connected | Disconnected, Disconnected | Failure, Failure => true
  | _, _ => false
  end.

(** The object the aggregated calls resolve with for one proxy:
    [{id, status}] or [{id, status, clientId}]. *)
Record ProxyResult := mkProxyResult {
  id : nat;
  status : ProxyStatusCode;
  clientId : JsString
}.

(** ** The world: client id store and observable calls *)

(** What the module does to the outside, in the order it does it. *)
Inductive Event :=
| ConnectCall (url : JsString) (apiRoot : string) (cid publicKey : JsString)
| CheckCall (url : JsString) (apiRoot : string) (cid : JsString)
| DisconnectCall (url : JsString) (apiRoot : string) (cid : JsString)
| ConsumeCall (url : JsString) (apiRoot : string) (cid : JsString) (waitTimeoutMs : nat)
| SendCall (url : JsString) (apiRoot : string) (cid : JsString) (payload : string)
| DebugLog (text detail : string).

(** A transport call, as opposed to a log line. *)
Definition is_transport (ev : Event) : bool :=
  match ev with
  | DebugLog _ _ => false
  | _ => true
  end.

Record World := mkWorld {
  clientIds : gmap JsString string;   (* module state of ClientIds.js *)
  trace : list Event
}.

(** Synchronous code: reads and writes the world, returns a value. *)
Definition Sync (A : Type) : Type := World → World * A.

#[global] Instance sync_ret : MRet Sync := λ A a w, (w, a).

#[global] Instance sync_bind : MBind Sync :=
  λ A B k m w, let '(w', a) := m w in k a w'.

(** A completion handler chain, run when its transport call completes: reads
    and writes the world, and settles. It also stands for the pending promise
    that the chain settles. *)
Abbreviation Handler A := (Sync (Settled A)).

(** [return v] inside a handler. *)
Definition resolve {A} (a : A) : Handler A := mret (Fulfilled a).

(** [promise.then(f)]: [f] runs on fulfilment, a rejection passes through. *)
Definition then_ {A B} (p : Handler A) (f : A → Handler B) : Handler B :=
  s ← p;
  match s with
  | Fulfilled a => f a
  | Rejected e => mret (Rejected e)
  end.

(** [promise.catch(g)]: [g] runs on rejection, a value passes through. *)
Definition catch_ {A} (p : Handler A) (g : JsError → Handler A) : Handler A :=
  s ← p;
  match s with
  | Fulfilled a => mret (Fulfilled a)
  | Rejected e => g e
  end.

Definition emit (ev : Event) : Sync unit :=
  λ w, (mkWorld (clientIds w) (trace w ++ [ev]), tt).

(** ** ClientIds *)

(** Modelled from the spec: [rest_api/ClientIds.js] is not among the sources.
    The spec's SessionStore maps an endpoint to at most one session id; its
    reset clears all mappings. *)
Definition resetClientIds : Sync unit :=
  λ w, (mkWorld ∅ (trace w), tt).

(** Modelled from the spec: [storeClientId] of the absent [ClientIds.js];
    the spec's store inserts or overwrites the mapping of the endpoint. *)
Definition storeClientId (url : JsString) (cid : string) : Sync unit :=
  λ w, (mkWorld (<[url := cid]> (clientIds w)) (trace w), tt).

(** Modelled from the spec: [clientIdExists] of the absent [ClientIds.js];
    the spec's exists tells whether the endpoint has a mapping. *)
Definition clientIdExists (url : JsString) : Sync bool :=
  λ w, (w, bool_decide (is_Some (clientIds w !! url))).

(** Modelled from the spec: [getClientId] of the absent [ClientIds.js]; the
    spec's get reads the mapping, which the callers have checked to exist. *)
Definition getClientId (url : JsString) : Sync JsString :=
  λ w, (w, clientIds w !! url).

(** Modelled from the spec: [removeClientId] of the absent [ClientIds.js];
    the spec's remove deletes the mapping of the endpoint. *)
Definition removeClientId (url : JsString) : Sync unit :=
  λ w, (mkWorld (delete url (clientIds w)) (trace w), tt).

(** ** verifyRequiredKeys *)

(** Modelled from the spec: [utility/verifyRequiredKeys.js] is not among the
    sources. The spec's input validation contract: every element of a list
    of records must expose the named field. *)
Definition verifyRequiredKeys (objectList : list JsObject) (key : string) : bool :=
  forallb (λ obj, bool_decide (is_Some (obj !! key))) objectList.

(** ** allProxiesConnected *)

Definition allProxiesConnected (spdzConnectionStatusList : list ProxyResult) : bool :=
  if strict_equal (Array_size spdzConnectionStatusList) (JsNumber 0)
  then false
  else
    strict_equal
      (Array_length
         (filter (λ spdzProxyConnection,
                    status_eqb (status spdzProxyConnection) Connected = true)
                 spdzConnectionStatusList))
      (Array_length spdzConnectionStatusList).

(** ** Promises and [Promise.all] *)

(** A promise as one element of the list handed to [Promise.all]. *)
Inductive Promise (A : Type) :=
| Promise_resolve (a : A)        (* Promise.resolve(a): fulfilled from the start *)
| Promise_reject (e : JsError)   (* Promise.reject(e): rejected from the start *)
| Pending (h : Handler A).       (* a transport call chained with its handlers *)
Arguments Promise_resolve {A} a.
Arguments Promise_reject {A} e.
Arguments Pending {A} h.

(** What an aggregated function returns: an early [Promise.reject(e)], or
    [Promise.all] of the promises it built. *)
Inductive Returned (A : Type) :=
| Return_reject (e : JsError)
| Return_all (ps : list (Promise A)).
Arguments Return_reject {A} e.
Arguments Return_all {A} ps.

(** [array.map((element, index) => ...)] with a callback that acts on the
    world: elements are visited in order. *)
Fixpoint Array_map_from {A B} (f : A → nat → Sync B) (index : nat) (l : list A)
  : Sync (list B) :=
  match l with
  | [] => mret []
  | x :: rest =>
      y ← f x index;
      ys ← Array_map_from f (S index) rest;
      mret (y :: ys)
  end.

Definition Array_map {A B} (f : A → nat → Sync B) (l : list A) : Sync (list B) :=
  Array_map_from f 0 l.

(** The event loop after the synchronous phase. [sched] lists positions in
    the order in which their transport calls complete; the handler chain of a
    pending promise runs when its position comes up for the first time.
    Positions that are out of range, repeated, or whose promise was settled
    from the start, are passed over. The result records, in completion
    order, how each pending promise settled. *)
Fixpoint run_handlers {A} (ps : list (Promise A)) (sched : list nat)
    (done : list (nat * Settled A)) : Sync (list (nat * Settled A)) :=
  match sched with
  | [] => mret done
  | i :: rest =>
      match ps !! i with
      | Some (Pending h) =>
          if bool_decide (i ∈ done.*1) then run_handlers ps rest done
          else s ← h; run_handlers ps rest (done ++ [(i, s)])
      | _ => run_handlers ps rest done
      end
  end.

(** The first promise that was rejected from the start. *)
Fixpoint rejected_at_once {A} (ps : list (Promise A)) : option JsError :=
  match ps with
  | [] => None
  | Promise_reject e :: _ => Some e
  | _ :: rest => rejected_at_once rest
  end.

(** The first pending promise to reject, in completion order. *)
Fixpoint rejected_later {A} (done : list (nat * Settled A)) : option JsError :=
  match done with
  | [] => None
  | (_, Rejected e) :: _ => Some e
  | _ :: rest => rejected_later rest
  end.

(** How the promise at position [i] has settled so far. *)
Definition completion {A} (done : list (nat * Settled A)) (i : nat)
  : option (Settled A) :=
  (list_to_map done : gmap nat (Settled A)) !! i.

(** The value of the promise at position [i], once it is fulfilled. *)
Definition element_value {A} (done : list (nat * Settled A)) (i : nat)
    (p : Promise A) : option A :=
  match p with
  | Promise_resolve a => Some a
  | Promise_reject _ => None
  | Pending _ =>
      match completion done i with
      | Some (Fulfilled a) => Some a
      | _ => None
      end
  end.

(** [Promise.all(ps)] after the completions [done]: rejected with the reason
    of the first element to reject (those rejected from the start come before
    any transport call completes), fulfilled with the values in list order
    once every element is fulfilled, and not settled ([None]) otherwise. *)
Definition Promise_all {A} (ps : list (Promise A)) (done : list (nat * Settled A))
  : option (Settled (list A)) :=
  match rejected_at_once ps with
  | Some e => Some (Rejected e)
  | None =>
      match rejected_later done with
      | Some e => Some (Rejected e)
      | None => Fulfilled <$> mapM (λ v, v) (imap (element_value done) ps)
      end
  end.

(** One call of an aggregated function from start to quiescence: the
    synchronous phase, then the handlers along [sched]. The result is how
    the returned promise has settled, [None] while it is still pending. *)
Definition exec {A} (call : Sync (Returned A)) (sched : list nat)
  : Sync (option (Settled (list A))) :=
  r ← call;
  match r with
  | Return_reject e => mret (Some (Rejected e))
  | Return_all ps => done ← run_handlers ps sched []; mret (Promise_all ps done)
  end.

(** The world and the settlement at the end of a call. *)
Definition world_after {A} (call : Sync (Returned A)) (sched : list nat) (w : World)
  : World := (exec call sched w).1.

Definition settlement {A} (call : Sync (Returned A)) (sched : list nat) (w : World)
  : option (Settled (list A)) := (exec call sched w).2.

(** ** The transport and the crypto provider *)

(** What the proxies answer. The first argument is the position of the call
    in the fan-out, so that two calls with the same arguments may be answered
    differently. *)
Record ProxyTransport := mkProxyTransport {
  connect_reply : nat → JsString → string → JsString → JsString → Settled string;
  check_reply : nat → JsString → string → JsString → Settled unit;
  disconnect_reply : nat → JsString → string → JsString → Settled unit;
  consume_reply : nat → JsString → string → JsString → nat → Settled Bytes;
  send_reply : nat → JsString → string → JsString → string → Settled unit
}.

Section Aggregate.

Variable net : ProxyTransport.

(** [decrypt(encryptionKey, cipherMessage)] of [crypto], which is not among
    the sources: it returns the clear bytes or throws. *)
Variable decrypt : JsString → Bytes → Settled Bytes.

(** Modelled from the spec: [rest_api/SpdzApi.js] is not among the sources.
    The spec's ProxyTransport: each operation invokes the proxy and gives a
    value or fails; connect gives the session id. The call is recorded when
    it is made; the promise settles with the proxy's answer. *)
Definition connectProxyToEngine (position : nat) (url : JsString) (apiRoot : string)
    (cid publicKey : JsString) : Sync (Handler string) :=
  emit (ConnectCall url apiRoot cid publicKey);;
  mret (mret (connect_reply net position url apiRoot cid publicKey)).

(** Modelled from the spec: [checkEngineConnection] of the absent
    [SpdzApi.js]; the spec's check gives ok or an error. *)
Definition checkEngineConnection (position : nat) (url : JsString) (apiRoot : string)
    (cid : JsString) : Sync (Handler unit) :=
  emit (CheckCall url apiRoot cid);;
  mret (mret (check_reply net position url apiRoot cid)).

(** Modelled from the spec: [disconnectProxyFromEngine] of the absent
    [SpdzApi.js]; the spec's disconnect gives ok or an error. *)
Definition disconnectProxyFromEngine (position : nat) (url : JsString)
    (apiRoot : string) (cid : JsString) : Sync (Handler unit) :=
  emit (DisconnectCall url apiRoot cid);;
  mret (mret (disconnect_reply net position url apiRoot cid)).

(** Modelled from the spec: [consumeDataFromProxy] of the absent
    [SpdzApi.js]; the spec's consume gives bytes, the retryable no-content
    signal, or an error. *)
Definition consumeDataFromProxy (position : nat) (url : JsString) (apiRoot : string)
    (cid : JsString) (waitTimeoutMs : nat) : Sync (Handler Bytes) :=
  emit (ConsumeCall url apiRoot cid waitTimeoutMs);;
  mret (mret (consume_reply net position url apiRoot cid waitTimeoutMs)).

(** Modelled from the spec: [sendDataToProxy] of the absent [SpdzApi.js];
    the spec's send gives ok or an error. *)
Definition sendDataToProxy (position : nat) (url : JsString) (apiRoot : string)
    (cid : JsString) (payload : string) : Sync (Handler unit) :=
  emit (SendCall url apiRoot cid payload);;
  mret (mret (send_reply net position url apiRoot cid payload)).

(** [logger.debug(text, detail)]. *)
Definition logger_debug (text detail : string) : Sync unit :=
  emit (DebugLog text detail).

(** ** The aggregated functions *)

Definition connectToSPDZ (spdzProxyUrlList : list string) (spdzApiRoot : string)
    (clientId clientPublicKey : JsString) : Sync (Returned ProxyResult) :=
  resetClientIds;;
  connectList ← Array_map (λ url index,
    p ← connectProxyToEngine index (Some url) spdzApiRoot clientId clientPublicKey;
    mret (Pending
      (catch_
        (then_ p (λ generatedClientId,
           storeClientId (Some url) generatedClientId;;
           resolve (mkProxyResult index Connected (Some generatedClientId))))
        (λ ex,
           logger_debug "Unable to successfully run connection setup."
             (match err_reason ex with
              | Some m => m
              | None => err_message ex
              end);;
           resolve (mkProxyResult index Failure None)))))
    spdzProxyUrlList;
  mret (Return_all connectList).

Definition checkProxies (spdzProxyUrlList : list string) (spdzApiRoot : string)
  : Sync (Returned ProxyResult) :=
  checkList ← Array_map (λ url index,
    known ← clientIdExists (Some url);
    if negb known then
      mret (Promise_resolve (mkProxyResult index Failure None))
    else
      cid ← getClientId (Some url);
      p ← checkEngineConnection index (Some url) spdzApiRoot cid;
      mret (Pending
        (catch_
          (then_ p (λ _, resolve (mkProxyResult index Connected None)))
          (λ _, resolve (mkProxyResult index Disconnected None)))))
    spdzProxyUrlList;
  mret (Return_all checkList).

Definition disconnectFromSPDZ (spdzProxyList : list JsObject) (spdzApiRoot : string)
  : Sync (Returned ProxyResult) :=
  if negb (verifyRequiredKeys spdzProxyList "url") then
    mret (Return_reject (new_Error "Each spdzProxyList entry must contain keys: url."))
  else
    disconnectList ← Array_map (λ (proxy : JsObject) index,
      known ← clientIdExists (proxy !! "url");
      if negb known then
        mret (Promise_resolve (mkProxyResult index Disconnected None))
      else
        cid ← getClientId (proxy !! "url");
        p ← disconnectProxyFromEngine index (proxy !! "url") spdzApiRoot cid;
        mret (Pending
          (catch_
            (then_ p (λ _,
               removeClientId (proxy !! "url");;
               resolve (mkProxyResult index Disconnected None)))
            (λ _,
               removeClientId (proxy !! "url");;
               resolve (mkProxyResult index Disconnected None)))))
      spdzProxyList;
    mret (Return_all disconnectList).

Definition consumeDataFromProxies (spdzProxyList : list JsObject)
    (spdzApiRoot : string) (encrypted : bool) (waitTimeoutMs : option nat)
  : Sync (Returned Bytes) :=
  let waitTimeoutMs := default 0 waitTimeoutMs in
  if negb (verifyRequiredKeys spdzProxyList "url") then
    mret (Return_reject (new_Error "Each spdzProxyList entry must contain keys: url."))
  else
    consumeList ← Array_map (λ (proxy : JsObject) index,
      known ← clientIdExists (proxy !! "url");
      if negb known then
        mret (Promise_reject
          (new_Error ("Not connected to SPDZ for proxy " +:+ template (proxy !! "url") +:+ ".")))
      else
        cid ← getClientId (proxy !! "url");
        p ← consumeDataFromProxy index (proxy !! "url") spdzApiRoot cid waitTimeoutMs;
        mret (Pending
          (then_ p (λ binaryPayload,
             if encrypted
             then mret (decrypt (proxy !! "encryptionKey") binaryPayload)
             else resolve binaryPayload))))
      spdzProxyList;
    mret (Return_all consumeList).

(** The input values and their encoding: [Gfp] with its [toNativeHexString],
    [base64Encode] of [utility/binary] and the built-in [JSON.stringify] are
    not among the sources. *)
Variable Gfp : Type.
Variable toNativeHexString : Gfp → string.
Variable base64Encode : string → string.
Variable JSON_stringify : list string → string.

Definition sendInputsToProxies (spdzProxyList : list JsObject) (spdzApiRoot : string)
    (inputList : list Gfp) : Sync (Returned unit) :=
  if negb (verifyRequiredKeys spdzProxyList "url") then
    mret (Return_reject (new_Error "Each spdzProxyList entry must contain keys: url."))
  else
    let payload := map (λ gfpInput, base64Encode (toNativeHexString gfpInput)) inputList in
    sendInputsList ← Array_map (λ (proxy : JsObject) index,
      known ← clientIdExists (proxy !! "url");
      if negb known then
        mret (Promise_reject
          (new_Error ("Not connected to SPDZ for proxy " +:+ template (proxy !! "url") +:+ ".")))
      else
        cid ← getClientId (proxy !! "url");
        p ← sendDataToProxy index (proxy !! "url") spdzApiRoot cid (JSON_stringify payload);
        mret (Pending p))
      spdzProxyList;
    mret (Return_all sendInputsList).

End Aggregate.

(** ** Vocabulary for the statements *)

(** The endpoint a transport call goes to. *)
Definition event_url (ev : Event) : option JsString :=
  match ev with
  | ConnectCall url _ _ _ | CheckCall url _ _ | DisconnectCall url _ _
  | ConsumeCall url _ _ _ | SendCall url _ _ _ => Some url
  | DebugLog _ _ => None
  end.

(** Every position of an [n]-element list comes up in the schedule: every
    transport call completes. *)
Definition completes (sched : list nat) (n : nat) : Prop :=
  Forall (λ i, i ∈ sched) (seq 0 n).

(** A promise whose settlement does not depend on the world it runs in. *)
Definition settles_as {A} (p : Promise A) (s : Settled A) : Prop :=
  match p with
  | Promise_resolve a => s = Fulfilled a
  | Promise_reject e => s = Rejected e
  | Pending h => ∀ w, (h w).2 = s
  end.

(** A callback of [Array_map] that leaves the client ids alone, and whose
    events and result depend on the world through the client ids only. *)
Definition reads_only {A B} (f : A → nat → Sync B)
    (events : gmap JsString string → A → nat → list Event)
    (result : gmap JsString string → A → nat → B) : Prop :=
  ∀ x i w, f x i w = (mkWorld (clientIds w) (trace w ++ events (clientIds w) x i),
                      result (clientIds w) x i).

(** The error of an entry whose endpoint has no stored client id. *)
Definition not_connected (proxy : JsObject) : JsError :=
  new_Error ("Not connected to SPDZ for proxy " +:+ template (proxy !! "url") +:+ ".").

(** The error of a list with an entry that has no [url]. *)
Definition missing_url : JsError :=
  new_Error "Each spdzProxyList entry must contain keys: url.".

Section Chains.

Variable net : ProxyTransport.
Variable decrypt : JsString → Bytes → Settled Bytes.
Variable spdzApiRoot : string.

(** *** connectToSPDZ at one position *)

(** The handler chain built for position [index]. *)
Definition connect_chain (cid publicKey : JsString) (index : nat) (url : string)
  : Handler ProxyResult :=
  catch_
    (then_ (mret (connect_reply net index (Some url) spdzApiRoot cid publicKey))
       (λ generatedClientId,
          storeClientId (Some url) generatedClientId;;
          resolve (mkProxyResult index Connected (Some generatedClientId))))
    (λ ex,
       logger_debug "Unable to successfully run connection setup."
         (match err_reason ex with
          | Some m => m
          | None => err_message ex
          end);;
       resolve (mkProxyResult index Failure None)).

(** The result object for position [index], from the proxy's answer. *)
Definition connect_outcome (cid publicKey : JsString) (index : nat) (url : string)
  : ProxyResult :=
  match connect_reply net index (Some url) spdzApiRoot cid publicKey with
  | Fulfilled generatedClientId => mkProxyResult index Connected (Some generatedClientId)
  | Rejected _ => mkProxyResult index Failure None
  end.

(** What the handlers of position [index] do to the world. *)
Definition connect_effect (cid publicKey : JsString) (index : nat) (url : string)
    (w : World) : World :=
  match connect_reply net index (Some url) spdzApiRoot cid publicKey with
  | Fulfilled generatedClientId =>
      mkWorld (<[Some url := generatedClientId]> (clientIds w)) (trace w)
  | Rejected ex =>
      mkWorld (clientIds w)
        (trace w ++ [DebugLog "Unable to successfully run connection setup."
                       (match err_reason ex with
                        | Some m => m
                        | None => err_message ex
                        end)])
  end.

(** *** checkProxies at one position *)

Definition check_chain (index : nat) (url : string) (cid : JsString)
  : Handler ProxyResult :=
  catch_
    (then_ (mret (check_reply net index (Some url) spdzApiRoot cid))
       (λ _, resolve (mkProxyResult index Connected None)))
    (λ _, resolve (mkProxyResult index Disconnected None)).

Definition check_promise (store : gmap JsString string) (index : nat) (url : string)
  : Promise ProxyResult :=
  match store !! Some url with
  | None => Promise_resolve (mkProxyResult index Failure None)
  | Some c => Pending (check_chain index url (Some c))
  end.

(** The transport call made for one URL, if any. *)
Definition check_call (store : gmap JsString string) (url : string) : option Event :=
  c ← store !! Some url; Some (CheckCall (Some url) spdzApiRoot (Some c)).

Definition check_outcome (store : gmap JsString string) (index : nat) (url : string)
  : ProxyResult :=
  match store !! Some url with
  | None => mkProxyResult index Failure None
  | Some c =>
      match check_reply net index (Some url) spdzApiRoot (Some c) with
      | Fulfilled _ => mkProxyResult index Connected None
      | Rejected _ => mkProxyResult index Disconnected None
      end
  end.

(** *** disconnectFromSPDZ at one position *)

Definition disconnect_chain (index : nat) (proxy : JsObject) (cid : JsString)
  : Handler ProxyResult :=
  catch_
    (then_ (mret (disconnect_reply net index (proxy !! "url") spdzApiRoot cid))
       (λ _,
          removeClientId (proxy !! "url");;
          resolve (mkProxyResult index Disconnected None)))
    (λ _,
       removeClientId (proxy !! "url");;
       resolve (mkProxyResult index Disconnected None)).

Definition disconnect_promise (store : gmap JsString string) (index : nat)
    (proxy : JsObject) : Promise ProxyResult :=
  match store !! (proxy !! "url") with
  | None => Promise_resolve (mkProxyResult index Disconnected None)
  | Some c => Pending (disconnect_chain index proxy (Some c))
  end.

Definition disconnect_call (store : gmap JsString string) (proxy : JsObject)
  : option Event :=
  c ← store !! (proxy !! "url");
  Some (DisconnectCall (proxy !! "url") spdzApiRoot (Some c)).

(** *** consumeDataFromProxies at one position *)

Definition consume_chain (encrypted : bool) (waitTimeoutMs : nat) (index : nat)
    (proxy : JsObject) (cid : JsString) : Handler Bytes :=
  then_ (mret (consume_reply net index (proxy !! "url") spdzApiRoot cid waitTimeoutMs))
    (λ binaryPayload,
       if encrypted
       then mret (decrypt (proxy !! "encryptionKey") binaryPayload)
       else resolve binaryPayload).

Definition consume_promise (encrypted : bool) (waitTimeoutMs : nat)
    (store : gmap JsString string) (index : nat) (proxy : JsObject) : Promise Bytes :=
  match store !! (proxy !! "url") with
  | None => Promise_reject (not_connected proxy)
  | Some c => Pending (consume_chain encrypted waitTimeoutMs index proxy (Some c))
  end.

Definition consume_call (waitTimeoutMs : nat) (store : gmap JsString string)
    (proxy : JsObject) : option Event :=
  c ← store !! (proxy !! "url");
  Some (ConsumeCall (proxy !! "url") spdzApiRoot (Some c) waitTimeoutMs).

(** The decrypt step on the bytes fetched for one proxy. *)
Definition consume_payload (encrypted : bool) (proxy : JsObject) (binaryPayload : Bytes)
  : Settled Bytes :=
  if encrypted then decrypt (proxy !! "encryptionKey") binaryPayload
  else Fulfilled binaryPayload.

(** How the promise of position [index] settles. *)
Definition consume_settled (encrypted : bool) (waitTimeoutMs : nat)
    (store : gmap JsString string) (index : nat) (proxy : JsObject) : Settled Bytes :=
  match store !! (proxy !! "url") with
  | None => Rejected (not_connected proxy)
  | Some c =>
      match consume_reply net index (proxy !! "url") spdzApiRoot (Some c) waitTimeoutMs with
      | Fulfilled binaryPayload => consume_payload encrypted proxy binaryPayload
      | Rejected e => Rejected e
      end
  end.

(** *** sendInputsToProxies at one position *)

Definition send_promise (payload : string) (store : gmap JsString string) (index : nat)
    (proxy : JsObject) : Promise unit :=
  match store !! (proxy !! "url") with
  | None => Promise_reject (not_connected proxy)
  | Some c =>
      Pending (mret (send_reply net index (proxy !! "url") spdzApiRoot (Some c) payload))
  end.

Definition send_call (payload : string) (store : gmap JsString string)
    (proxy : JsObject) : option Event :=
  c ← store !! (proxy !! "url");
  Some (SendCall (proxy !! "url") spdzApiRoot (Some c) payload).

Definition send_settled (payload : string) (store : gmap JsString string) (index : nat)
    (proxy : JsObject) : Settled unit :=
  match store !! (proxy !! "url") with
  | None => Rejected (not_connected proxy)
  | Some c => send_reply net index (proxy !! "url") spdzApiRoot (Some c) payload
  end.

End Chains.

(** The one string that [sendInputsToProxies] sends to every proxy. *)
Definition send_payload (Gfp : Type) (toNativeHexString : Gfp → string)
    (base64Encode : string → string) (JSON_stringify : list string → string)
    (inputList : list Gfp) : string :=
  JSON_stringify (map (λ gfpInput, base64Encode (toNativeHexString gfpInput)) inputList).

(** ** The spec's readings that the code does not follow *)

(** The spec has the decrypt step switched by a flag on each party record:
    some property of the record alone, [flagged], decides whether the bytes
    fetched for it are decrypted. *)
Definition per_party_payload (decrypt : JsString → Bytes → Settled Bytes)
    (flagged : JsObject → bool) (proxy : JsObject) (binaryPayload : Bytes)
  : Settled Bytes :=
  if flagged proxy then decrypt (proxy !! "encryptionKey") binaryPayload
  else Fulfilled binaryPayload.

(** The spec has a no-data answer of any proxy reach the caller as a no-data
    rejection. *)
Definition no_data_surfaces (net : ProxyTransport)
    (decrypt : JsString → Bytes → Settled Bytes) (proxies : list JsObject)
    (apiRoot : string) (encrypted : bool) (wait : option nat)
    (sched : list nat) (w : World) : Prop :=
  ∀ i proxy e,
    proxies !! i = Some proxy →
    consume_reply net i (proxy !! "url") apiRoot (clientIds w !! (proxy !! "url"))
      (default 0 wait) = Rejected e →
    err_class e = NoContentError →
    ∃ e', settlement (consumeDataFromProxies net decrypt proxies apiRoot encrypted wait)
            sched w = Some (Rejected e') ∧
          err_class e' = NoContentError.

(** ** Sample data *)

Definition proxy0 : JsObject :=
  {[ "url" := "http://spdzproxy0"; "encryptionKey" := "abc" ]}.
Definition proxy1 : JsObject :=
  {[ "url" := "http://spdzproxy1"; "encryptionKey" := "def" ]}.
Definition proxy2 : JsObject :=
  {[ "url" := "http://spdzproxy2" ]}.
Definition proxy_without_url : JsObject :=
  {[ "encryptionKey" := "abc" ]}.

Definition three_urls : list string :=
  ["http://spdzproxy0"; "http://spdzproxy1"; "http://spdzproxy2"].

(** No client id stored. *)
Definition fresh_world : World := mkWorld ∅ [].

(** A client id stored for each of the three proxies. *)
Definition connected_world : World :=
  mkWorld {[ Some "http://spdzproxy0" := "client0";
             Some "http://spdzproxy1" := "client1";
             Some "http://spdzproxy2" := "client2" ]} [].

(** A client id stored for the first two proxies only. *)
Definition half_connected_world : World :=
  mkWorld {[ Some "http://spdzproxy0" := "client0";
             Some "http://spdzproxy1" := "client1" ]} [].

Definition no_content : JsError := mkJsError NoContentError "No data available" None.

(** Proxies that accept everything. *)
Definition steady_net : ProxyTransport :=
  mkProxyTransport
    (λ _ _ _ cid _, Fulfilled (default "generated" cid))
    (λ _ _ _ _, Fulfilled tt)
    (λ _ _ _ _, Fulfilled tt)
    (λ _ _ _ _ _, Fulfilled [x01; x02; x03]%byte)
    (λ _ _ _ _ _, Fulfilled tt).

(** Proxies of which the one at position 1 refuses to connect, check,
    disconnect and send; on consume the one at position 0 fails and the one
    at position 1 has no data yet. *)
Definition faulty_net : ProxyTransport :=
  mkProxyTransport
    (λ i _ _ cid _,
       if Nat.eqb i 1 then Rejected (new_Error "Unable to make spdz proxy engine connection.")
       else Fulfilled (default "generated" cid))
    (λ i _ _ _, if Nat.eqb i 1 then Rejected (new_Error "Not connected.") else Fulfilled tt)
    (λ i _ _ _, if Nat.eqb i 1 then Rejected (new_Error "Not connected.") else Fulfilled tt)
    (λ i _ _ _ _,
       match i with
       | 0 => Rejected (new_Error "Unable to consume data.")
       | 1 => Rejected no_content
       | _ => Fulfilled [x01; x02; x03]%byte
       end)
    (λ i _ _ _ _,
       if Nat.eqb i 1 then Rejected (new_Error "Unable to send data.") else Fulfilled tt).

(** A stand-in crypto provider: the clear text is the cipher text without
    its first byte, and there is no decrypting without a key. *)
Definition sample_decrypt (key : JsString) (cipherMessage : Bytes) : Settled Bytes :=
  match key with
  | Some _ => Fulfilled (drop 1 cipherMessage)
  | None => Rejected (new_Error "No encryption key.")
  end.

(** Stand-ins for the encoding of inputs: inputs are their own hex strings,
    left as they are, and joined with commas. *)
Definition sample_stringify (l : list string) : string :=
  "[" +:+ String.concat "," l +:+ "]".

(** ** The Millionaires program *)

(** The SPDZ program that the engines run: clients join a game, each with an
    id and a secret value, and every client is told the id of the client
    with the highest value. Secret values ([sint]) are modelled by the
    integers they share, within the bit length for which the secure
    comparison is exact; arrays are lists, read within their declared
    size. *)







(** What one client brings when it connects: the socket the connection gets
    and its three inputs, in the order they are sent: unique id, bonus value
    and the flag that ends the round. *)
Record Client := mkClient {
  client_socket_id : Z;
  unique_id : Z;
  bonus_value : Z;
  finish_flag : Z
}.




(** The memory of [main]: the three arrays and [number_clients]. *)
Record Memory := mkMemory {
  client_sockets : list Z;
  number_clients : nat;
  client_values : list Z;
  client_ids : list Z
}.





(** The memory after the clients [cs] have joined. *)
Definition joined_memory (m : Memory) (cs : list Client) : Memory :=
  fold_left (λ m c,
    mkMemory (<[number_clients m := client_socket_id c]> (client_sockets m))
             (number_clients m + 1)
             (<[number_clients m := bonus_value c]> (client_values m))
             (<[number_clients m := unique_id c]> (client_ids m))) cs m.


(** * Proofs *)

Ltac sync_unfold := unfold mbind, mret, sync_bind, sync_ret in *.

(** ** allProxiesConnected *)

Lemma status_eqb_Connected s : status_eqb s Connected = true ↔ s = Connected.
Proof. destruct s; simpl; split; congruence. Qed.

Lemma filter_length_all {A} (P : A → Prop) `{∀ x, Decision (P x)} (l : list A) :
  length (filter P l) = length l ↔ Forall P l.
Proof.
  induction l as [|x l IH]; [by split|].
  rewrite filter_cons. case_decide as HP.
  - simpl. rewrite Forall_cons. split.
    + intros Hl. split; [done|]. apply IH. lia.
    + intros [_ Hl]. f_equal. by apply IH.
  - split.
    + intros Hl. pose proof (length_filter P l). simpl in Hl. lia.
    + intros Hl. by apply Forall_cons in Hl as [? _].
Qed.

Lemma allProxiesConnected_spec (l : list ProxyResult) :
  allProxiesConnected l = true ↔ Forall (λ r, status r = Connected) l.
Proof.
  unfold allProxiesConnected, Array_size, Array_length. simpl.
  rewrite Nat.eqb_eq, filter_length_all.
  apply Forall_proper; [|done]. intros r. apply status_eqb_Connected.
Qed.

(** ** The synchronous phase *)

Section Array_map.
Context {A B : Type}.

Lemma Array_map_from_reads_only (f : A → nat → Sync B) events result :
  reads_only f events result →
  ∀ l n w,
    Array_map_from f n l w =
      (mkWorld (clientIds w)
         (trace w ++ concat (imap (λ k x, events (clientIds w) x (n + k)) l)),
       imap (λ k x, result (clientIds w) x (n + k)) l).
Proof.
  intros Hf l. induction l as [|x l IH]; intros n w; simpl.
  - sync_unfold. destruct w. by rewrite app_nil_r.
  - sync_unfold. rewrite Hf, IH. simpl.
    rewrite Nat.add_0_r, <- app_assoc.
    assert (Hshift : ∀ C (g : A → nat → C),
               imap (λ k y, g y (S n + k)) l = imap ((λ k y, g y (n + k)) ∘ S) l).
    { intros C g. apply imap_ext. intros k y _. simpl. f_equal. lia. }
    by rewrite !Hshift.
Qed.

Lemma Array_map_reads_only (f : A → nat → Sync B) events result :
  reads_only f events result →
  ∀ l w,
    Array_map f l w =
      (mkWorld (clientIds w)
         (trace w ++ concat (imap (λ k x, events (clientIds w) x k) l)),
       imap (λ k x, result (clientIds w) x k) l).
Proof. intros Hf l w. unfold Array_map. by rewrite (Array_map_from_reads_only _ _ _ Hf). Qed.
End Array_map.

(** ** The event loop *)

Section run_handlers.
Context {A : Type}.
Implicit Types (ps : list (Promise A)) (d : list (nat * Settled A)).
Implicit Types (sched : list nat) (w : World).

Lemma run_handlers_app ps s1 s2 d w :
  run_handlers ps (s1 ++ s2) d w =
    run_handlers ps s2 (run_handlers ps s1 d w).2 (run_handlers ps s1 d w).1.
Proof.
  revert d w. induction s1 as [|i s1 IH]; intros d w; simpl; [done|].
  destruct (ps !! i) as [[a|e|h]|]; try apply IH.
  case_bool_decide; [apply IH|].
  sync_unfold. destruct (h w) as [w' s]. apply IH.
Qed.

(** Induction over the handlers that actually run. *)
Lemma run_handlers_invariant ps sched (P : World → list (nat * Settled A) → Prop) :
  (∀ w d i h,
      i ∈ sched → ps !! i = Some (Pending h) → i ∉ d.*1 → P w d →
      P (h w).1 (d ++ [(i, (h w).2)])) →
  ∀ d w,
    P w d →
    P (run_handlers ps sched d w).1 (run_handlers ps sched d w).2.
Proof.
  intros Hstep.
  assert (∀ rest, rest ⊆ sched → ∀ d w, P w d →
            P (run_handlers ps rest d w).1 (run_handlers ps rest d w).2) as Hgen.
  { induction rest as [|i rest IH]; intros Hsub d w HP; simpl; [done|].
    assert (rest ⊆ sched) as Hrest
      by (intros j Hj; apply Hsub; by apply list_elem_of_further).
    destruct (ps !! i) as [[a|e|h]|] eqn:Hi; try by apply IH.
    case_bool_decide as Hd; [by apply IH|].
    sync_unfold. assert (i ∈ sched) as Hin by apply Hsub, list_elem_of_here.
    specialize (Hstep w d i h Hin Hi Hd HP).
    destruct (h w) as [w' s]. by apply IH. }
  by apply Hgen.
Qed.

Lemma run_handlers_NoDup ps sched w :
  NoDup (run_handlers ps sched [] w).2.*1.
Proof.
  apply (run_handlers_invariant ps sched (λ _ d, NoDup d.*1)); [|constructor].
  intros w' d i h _ _ Hi Hd. simpl. rewrite fmap_app. simpl.
  apply NoDup_app. split_and!; [done| |apply NoDup_singleton].
  intros j Hj ->%list_elem_of_singleton. done.
Qed.

Lemma run_handlers_prefix ps sched d w :
  d `prefix_of` (run_handlers ps sched d w).2.
Proof.
  revert d w. induction sched as [|i sched IH]; intros d w; simpl; [done|].
  destruct (ps !! i) as [[a|e|h]|]; try apply IH.
  case_bool_decide; [apply IH|].
  sync_unfold. destruct (h w) as [w' s].
  etrans; [|apply IH]. by apply prefix_app_r.
Qed.

(** Every scheduled pending promise has completed at the end. *)
Lemma run_handlers_covered ps sched d w i h :
  i ∈ sched → ps !! i = Some (Pending h) →
  i ∈ (run_handlers ps sched d w).2.*1.
Proof.
  revert d w. induction sched as [|j sched IH]; intros d w Hin Hi;
    [by apply elem_of_nil in Hin|].
  assert (Hmono : ∀ d' w', i ∈ d'.*1 → i ∈ (run_handlers ps sched d' w').2.*1).
  { intros d' w' Hd. destruct (run_handlers_prefix ps sched d' w') as [k ->].
    rewrite fmap_app, elem_of_app. by left. }
  apply elem_of_cons in Hin as [<-|Hin]; simpl.
  - rewrite Hi. case_bool_decide as Hd; [by apply Hmono|].
    sync_unfold. destruct (h w) as [w' s]. apply Hmono.
    rewrite fmap_app, elem_of_app. right. apply list_elem_of_here.
  - destruct (ps !! j) as [[a|e|h']|]; try by apply IH.
    case_bool_decide; [by apply IH|].
    sync_unfold. destruct (h' w) as [w' s]. by apply IH.
Qed.

(** Only scheduled pending promises complete. *)
Lemma run_handlers_scheduled ps sched w i :
  i ∈ (run_handlers ps sched [] w).2.*1 →
  i ∈ sched ∧ ∃ h, ps !! i = Some (Pending h).
Proof.
  revert i.
  apply (run_handlers_invariant ps sched
           (λ _ d, ∀ i, i ∈ d.*1 → i ∈ sched ∧ ∃ h, ps !! i = Some (Pending h))).
  - intros w' d j h Hj Hh _ Hd i. simpl. rewrite fmap_app, elem_of_app. simpl.
    intros [Hi| ->%list_elem_of_singleton]; [by apply Hd|eauto].
  - intros i Hi. by apply elem_of_nil in Hi.
Qed.

Lemma run_handlers_settled ps ss sched w i s :
  Forall2 settles_as ps ss →
  (i, s) ∈ (run_handlers ps sched [] w).2 → ss !! i = Some s.
Proof.
  intros Hss. revert i s.
  apply (run_handlers_invariant ps sched (λ _ d, ∀ i s, (i, s) ∈ d → ss !! i = Some s)).
  - intros w' d j h _ Hh _ Hd i s. rewrite elem_of_app.
    intros [Hi|[= -> ->]%list_elem_of_singleton]; [by apply Hd|].
    destruct (Forall2_lookup_l _ _ _ _ _ Hss Hh) as (s' & -> & Hs). simpl in Hs.
    by rewrite Hs.
  - intros i s Hi. by apply elem_of_nil in Hi.
Qed.

Lemma completion_Some d i s :
  NoDup d.*1 → (i, s) ∈ d → completion d i = Some s.
Proof. intros Hd Hi. unfold completion. by apply elem_of_list_to_map. Qed.

Lemma completion_None d i : i ∉ d.*1 → completion d i = None.
Proof. intros Hi. unfold completion. by apply not_elem_of_list_to_map. Qed.

Lemma rejected_at_once_None ps :
  rejected_at_once ps = None ↔ ∀ e, Promise_reject e ∉ ps.
Proof.
  induction ps as [|p ps IH]; simpl.
  - split; [|done]. intros _ e He. by apply elem_of_nil in He.
  - assert (∀ q, (∀ e, q ≠ Promise_reject e) →
              (∀ e, Promise_reject e ∉ ps) ↔ (∀ e, Promise_reject e ∉ q :: ps)) as Hskip.
    { intros q Hq. split; intros Hno e.
      - intros [He|He]%elem_of_cons; [by destruct (Hq e)|by destruct (Hno e)].
      - intros He. destruct (Hno e). by apply list_elem_of_further. }
    destruct p as [a|e|h]; [by rewrite IH; apply Hskip| |by rewrite IH; apply Hskip].
    split; [done|]. intros He. destruct (He e). apply list_elem_of_here.
Qed.

Lemma rejected_later_None d :
  rejected_later d = None ↔ ∀ i e, (i, Rejected e) ∉ d.
Proof.
  induction d as [|[j s] d IH]; simpl.
  - split; [|done]. intros _ i e He. by apply elem_of_nil in He.
  - destruct s as [a|e].
    + rewrite IH. split; intros Hno i e.
      * intros [He|He]%elem_of_cons; [done|by destruct (Hno i e)].
      * intros He. destruct (Hno i e). by apply list_elem_of_further.
    + split; [done|]. intros He. destruct (He j e). apply list_elem_of_here.
Qed.

Lemma rejected_later_Some d e :
  rejected_later d = Some e → ∃ i, (i, Rejected e) ∈ d.
Proof.
  induction d as [|[j s] d IH]; simpl; [done|].
  destruct s as [a|e'].
  - intros [i Hi]%IH. exists i. by apply list_elem_of_further.
  - intros [= ->]. exists j. apply list_elem_of_here.
Qed.

Lemma rejected_at_once_Some ps e :
  rejected_at_once ps = Some e → Promise_reject e ∈ ps.
Proof.
  induction ps as [|p ps IH]; simpl; [done|].
  destruct p as [a|e'|h]; try (intros ?%IH; by apply list_elem_of_further).
  intros [= ->]. apply list_elem_of_here.
Qed.

(** The first of the completions to reject decides. *)
Lemma rejected_later_first d1 d2 i e :
  (∀ j e', (j, Rejected e') ∉ d1) →
  rejected_later (d1 ++ (i, Rejected e) :: d2) = Some e.
Proof.
  induction d1 as [|[j s] d1 IH]; intros Hd1; simpl; [done|].
  destruct s as [a|e'].
  - apply IH. intros k e'' He. destruct (Hd1 k e''). by apply list_elem_of_further.
  - destruct (Hd1 j e'). apply list_elem_of_here.
Qed.
End run_handlers.

(** ** [Promise.all] *)

Lemma completes_lookup sched n i : completes sched n → i < n → i ∈ sched.
Proof.
  unfold completes. rewrite Forall_forall. intros H Hi. apply H.
  apply elem_of_seq. lia.
Qed.

Section Promise_all.
Context {A : Type}.
Implicit Types (ps : list (Promise A)) (ss : list (Settled A)).
Implicit Types (sched : list nat) (w : World).

(** Where every promise is fulfilled and every transport call has
    completed, the result is the list of values, in list order. *)
Lemma Promise_all_fulfilled ps vs sched w :
  Forall2 settles_as ps (Fulfilled <$> vs) →
  completes sched (length ps) →
  Promise_all ps (run_handlers ps sched [] w).2 = Some (Fulfilled vs).
Proof.
  intros Hss Hsched. unfold Promise_all.
  pose proof (run_handlers_NoDup ps sched w) as Hnodup.
  pose proof (λ i s, run_handlers_settled ps _ sched w i s Hss) as Hdone.
  set (d := (run_handlers ps sched [] w).2) in *.
  assert (rejected_at_once ps = None) as ->.
  { apply rejected_at_once_None. intros e [i Hi]%list_elem_of_lookup.
    destruct (Forall2_lookup_l _ _ _ _ _ Hss Hi) as (s & Hs & Hp).
    apply list_lookup_fmap_Some in Hs as (v & -> & ?). done. }
  assert (rejected_later d = None) as ->.
  { apply rejected_later_None. intros i e Hi. apply Hdone in Hi.
    by apply list_lookup_fmap_Some in Hi as (v & ? & ?). }
  assert (mapM (λ v, v) (imap (element_value d) ps) = Some vs) as ->; [|done].
  apply mapM_Some. apply Forall2_same_length_lookup. split.
  { rewrite length_imap. apply Forall2_length in Hss. by rewrite length_fmap in Hss. }
  intros i x v Hx Hv. rewrite list_lookup_imap in Hx.
  destruct (ps !! i) as [p|] eqn:Hp; [|done]. simpl in Hx. injection Hx as <-.
  destruct (Forall2_lookup_l _ _ _ _ _ Hss Hp) as (s & Hs & Hsettle).
  rewrite list_lookup_fmap, Hv in Hs. injection Hs as <-.
  destruct p as [a|e|h]; simpl in *; [congruence|done|].
  assert (i ∈ d.*1) as [[j s] [-> Hjs]]%list_elem_of_fmap.
  { eapply run_handlers_covered; [|done].
    apply (completes_lookup _ _ _ Hsched). by eapply lookup_lt_Some. }
  simpl in *. rewrite (completion_Some _ _ _ Hnodup Hjs).
  apply Hdone in Hjs. rewrite list_lookup_fmap, Hv in Hjs. by injection Hjs as <-.
Qed.

(** Where no promise rejects, the result stays pending until the last
    transport call has completed. *)
Lemma Promise_all_pending ps vs sched w i h :
  Forall2 settles_as ps (Fulfilled <$> vs) →
  ps !! i = Some (Pending h) → i ∉ sched →
  Promise_all ps (run_handlers ps sched [] w).2 = None.
Proof.
  intros Hss Hp Hi. unfold Promise_all.
  pose proof (λ i s, run_handlers_settled ps _ sched w i s Hss) as Hdone.
  pose proof (run_handlers_scheduled ps sched w i) as Hsch.
  set (d := (run_handlers ps sched [] w).2) in *.
  assert (rejected_at_once ps = None) as ->.
  { apply rejected_at_once_None. intros e [j Hj]%list_elem_of_lookup.
    destruct (Forall2_lookup_l _ _ _ _ _ Hss Hj) as (s & Hs & Hp').
    apply list_lookup_fmap_Some in Hs as (v & -> & ?). done. }
  assert (rejected_later d = None) as ->.
  { apply rejected_later_None. intros j e Hj. apply Hdone in Hj.
    by apply list_lookup_fmap_Some in Hj as (v & ? & ?). }
  assert (mapM (λ v, v) (imap (element_value d) ps) = None) as ->; [|done].
  apply eq_None_not_Some. rewrite mapM_is_Some, Forall_lookup.
  intros Hall. specialize (Hall i (element_value d i (Pending h))).
  rewrite list_lookup_imap, Hp in Hall. specialize (Hall eq_refl).
  simpl in Hall. rewrite completion_None in Hall; [by destruct Hall|].
  intros Hd. by apply Hsch in Hd as [? _].
Qed.

(** A promise rejected from the start rejects the whole, whatever the
    transport calls do. *)
Lemma Promise_all_rejected_at_once ps d e :
  rejected_at_once ps = Some e → Promise_all ps d = Some (Rejected e).
Proof. intros He. unfold Promise_all. by rewrite He. Qed.

Lemma rejected_at_once_lookup ps i e :
  ps !! i = Some (Promise_reject e) → is_Some (rejected_at_once ps).
Proof.
  revert i. induction ps as [|p ps IH]; intros i Hi; [done|].
  destruct p as [a|e'|h]; simpl; [|done|]; destruct i; try done; by eapply IH.
Qed.

(** With none rejected from the start, the first transport call to complete
    with a rejection decides. *)
Lemma Promise_all_first_rejection ps ss before after w i e :
  Forall2 settles_as ps ss →
  rejected_at_once ps = None →
  (∀ j e', j ∈ before → ss !! j ≠ Some (Rejected e')) →
  ss !! i = Some (Rejected e) →
  Promise_all ps (run_handlers ps (before ++ i :: after) [] w).2 = Some (Rejected e).
Proof.
  intros Hss Honce Hbefore Hi. unfold Promise_all. rewrite Honce.
  rewrite run_handlers_app.
  pose proof (λ j s, run_handlers_settled ps _ before w j s Hss) as Hdone.
  pose proof (run_handlers_scheduled ps before w) as Hsch.
  destruct (run_handlers ps before [] w) as [w1 d1]. simpl in *.
  assert (∃ h, ps !! i = Some (Pending h)) as [h Hp].
  { destruct (Forall2_lookup_r _ _ _ _ _ Hss Hi) as ([a|e'|h] & Hp & Hsettle);
      simpl in Hsettle; [done| |by eexists].
    apply rejected_at_once_lookup in Hp. rewrite Honce in Hp. by destruct Hp. }
  rewrite Hp. case_bool_decide as Hd.
  { apply Hsch in Hd as [Hd _]. by destruct (Hbefore i e Hd). }
  sync_unfold.
  destruct (Forall2_lookup_l _ _ _ _ _ Hss Hp) as (s & Hs & Hsettle).
  simpl in Hsettle. specialize (Hsettle w1).
  destruct (h w1) as [w2 s']. simpl in Hsettle. subst s'.
  rewrite Hi in Hs. injection Hs as <-.
  destruct (run_handlers_prefix ps after (d1 ++ [(i, Rejected e)]) w2) as [d2 ->].
  rewrite <- app_assoc. simpl. rewrite rejected_later_first; [done|].
  intros j e' Hj. pose proof Hj as Hj'. apply Hdone in Hj.
  eapply (Hbefore j e'); [|done].
  apply Hsch. apply list_elem_of_fmap. by exists (j, Rejected e').
Qed.

(** The whole is fulfilled only if every promise is, and rejected only
    with the reason of one of its promises. *)
Lemma Promise_all_Fulfilled_inv ps ss sched w vs :
  Forall2 settles_as ps ss →
  Promise_all ps (run_handlers ps sched [] w).2 = Some (Fulfilled vs) →
  ss = Fulfilled <$> vs ∧ ∀ i h, ps !! i = Some (Pending h) → i ∈ sched.
Proof.
  intros Hss. unfold Promise_all.
  pose proof (run_handlers_NoDup ps sched w) as Hnodup.
  pose proof (λ i s, run_handlers_settled ps _ sched w i s Hss) as Hdone.
  pose proof (run_handlers_scheduled ps sched w) as Hsch.
  set (d := (run_handlers ps sched [] w).2) in *.
  destruct (rejected_at_once ps); [done|].
  destruct (rejected_later d); [done|].
  destruct (mapM _ _) as [vs'|] eqn:Hvs; [|done]. intros [= ->].
  apply mapM_Some, Forall2_same_length_lookup in Hvs as [Hlen Hvs].
  rewrite length_imap in Hlen.
  assert (∀ i p v, ps !! i = Some p → vs !! i = Some v → element_value d i p = Some v)
    as Hval.
  { intros i p v Hp Hv. apply (Hvs i); [|done]. by rewrite list_lookup_imap, Hp. }
  split.
  - apply list_eq_same_length with (length ps);
      [by rewrite length_fmap|by apply Forall2_length in Hss|].
    intros i s s' _ Hs Hs'. apply list_lookup_fmap_Some in Hs' as (v & -> & Hv).
    destruct (Forall2_lookup_r _ _ _ _ _ Hss Hs) as (p & Hp & Hsettle).
    specialize (Hval i p v Hp Hv).
    destruct p as [a|e|h]; simpl in *; [congruence|done|].
    destruct (completion d i) as [[a|e]|] eqn:Hc; try done. injection Hval as ->.
    unfold completion in Hc. apply elem_of_list_to_map in Hc; [|done].
    apply Hdone in Hc. congruence.
  - intros i h Hp.
    destruct (lookup_lt_is_Some_2 vs i) as [v Hv];
      [rewrite <- Hlen; by eapply lookup_lt_Some|].
    specialize (Hval i _ v Hp Hv). simpl in Hval.
    destruct (completion d i) as [s|] eqn:Hc; [|done].
    unfold completion in Hc. apply elem_of_list_to_map in Hc; [|done].
    apply Hsch. apply list_elem_of_fmap. by exists (i, s).
Qed.

Lemma Promise_all_Rejected_inv ps ss sched w e :
  Forall2 settles_as ps ss →
  Promise_all ps (run_handlers ps sched [] w).2 = Some (Rejected e) →
  Rejected e ∈ ss.
Proof.
  intros Hss. unfold Promise_all.
  pose proof (λ i s, run_handlers_settled ps _ sched w i s Hss) as Hdone.
  set (d := (run_handlers ps sched [] w).2) in *.
  destruct (rejected_at_once ps) as [e'|] eqn:Honce.
  - intros [= ->]. apply rejected_at_once_Some, list_elem_of_lookup in Honce as [i Hi].
    destruct (Forall2_lookup_l _ _ _ _ _ Hss Hi) as (s & Hs & ->).
    by eapply list_elem_of_lookup_2.
  - destruct (rejected_later d) as [e'|] eqn:Hlater.
    + intros [= ->]. apply rejected_later_Some in Hlater as [i Hi].
      apply Hdone in Hi. by eapply list_elem_of_lookup_2.
    + by destruct (mapM _ _).
Qed.

(** Handlers that leave the world alone. *)
Lemma run_handlers_world ps sched w :
  (∀ i h w', ps !! i = Some (Pending h) → (h w').1 = w') →
  (run_handlers ps sched [] w).1 = w.
Proof.
  intros Hh.
  apply (run_handlers_invariant ps sched (λ w' _, w' = w)); [|done].
  intros w' d i h _ Hp _ ->. by eapply Hh.
Qed.
End Promise_all.

Section Promise_all_settled.
Context {A : Type}.
Implicit Types (ps : list (Promise A)) (ss : list (Settled A)).

(** Once every transport call has completed, the whole has settled. *)
Lemma Promise_all_settled ps sched w :
  completes sched (length ps) →
  is_Some (Promise_all ps (run_handlers ps sched [] w).2).
Proof.
  intros Hsched. unfold Promise_all.
  pose proof (run_handlers_NoDup ps sched w) as Hnodup.
  pose proof (λ i h, run_handlers_covered ps sched [] w i h) as Hcov.
  set (d := (run_handlers ps sched [] w).2) in *.
  destruct (rejected_at_once ps) as [e|] eqn:Honce; [by eexists|].
  destruct (rejected_later d) as [e|] eqn:Hlater; [by eexists|].
  apply fmap_is_Some, mapM_is_Some, Forall_lookup. intros i x.
  rewrite list_lookup_imap. destruct (ps !! i) as [p|] eqn:Hp; [|done].
  intros [= <-]. simpl. destruct p as [a|e|h]; simpl; [by eexists| |].
  - apply rejected_at_once_lookup in Hp. rewrite Honce in Hp. by destruct Hp.
  - assert (i ∈ d.*1) as [[j s] [-> Hjs]]%list_elem_of_fmap.
    { eapply Hcov; [|done]. apply (completes_lookup _ _ _ Hsched).
      by eapply lookup_lt_Some. }
    simpl. rewrite (completion_Some _ _ _ Hnodup Hjs).
    destruct s as [a|e]; [by eexists|].
    by destruct (proj1 (rejected_later_None d) Hlater j e).
Qed.

(** One rejecting promise is enough to reject the whole. *)
Lemma Promise_all_rejected ps ss sched w e :
  Forall2 settles_as ps ss →
  completes sched (length ps) →
  Rejected e ∈ ss →
  ∃ e', Promise_all ps (run_handlers ps sched [] w).2 = Some (Rejected e').
Proof.
  intros Hss Hsched He.
  destruct (Promise_all_settled ps sched w Hsched) as [[vs|e'] Hall]; [|by eexists].
  apply (Promise_all_Fulfilled_inv _ _ _ _ _ Hss) in Hall as [-> _].
  by apply list_elem_of_fmap in He as (? & ? & _).
Qed.
End Promise_all_settled.

(** ** connectToSPDZ *)

Section connectToSPDZ.
Variable net : ProxyTransport.
Variables (spdzApiRoot : string) (cid publicKey : JsString).

Local Abbreviation chain := (connect_chain net spdzApiRoot cid publicKey).
Local Abbreviation outcome := (connect_outcome net spdzApiRoot cid publicKey).
Local Abbreviation effect := (connect_effect net spdzApiRoot cid publicKey).

Lemma connect_chain_run index url w :
  chain index url w =
    (effect index url w, Fulfilled (outcome index url)).
Proof.
  unfold connect_chain, connect_effect, connect_outcome, then_, catch_.
  unfold storeClientId, logger_debug, emit, resolve. sync_unfold.
  by destruct (connect_reply _ _ _ _ _ _).
Qed.

Lemma connectToSPDZ_sync urls w :
  connectToSPDZ net urls spdzApiRoot cid publicKey w =
    (mkWorld ∅ (trace w ++
                imap (λ i url, ConnectCall (Some url) spdzApiRoot cid publicKey) urls),
     Return_all (imap (λ i url, Pending (chain i url)) urls)).
Proof.
  unfold connectToSPDZ. sync_unfold. simpl.
  rewrite (Array_map_reads_only _
             (λ _ url i, [ConnectCall (Some url) spdzApiRoot cid publicKey])
             (λ _ url i, Pending (chain i url))).
  - simpl. do 3 f_equal. induction urls as [|u l IH] using rev_ind; [done|].
    by rewrite !imap_app, concat_app, IH.
  - by intros url i w'.
Qed.

Lemma connect_settles urls :
  Forall2 settles_as (imap (λ i url, Pending (chain i url)) urls)
    (Fulfilled <$> imap outcome urls).
Proof.
  apply Forall2_same_length_lookup. split; [by rewrite length_fmap, !length_imap|].
  intros i p s. rewrite list_lookup_fmap, !list_lookup_imap.
  destruct (urls !! i) as [url|]; [|done]. simpl. intros [= <-] [= <-] w.
  by rewrite connect_chain_run.
Qed.

Lemma connect_promise_lookup urls i h :
  imap (λ i url, Pending (chain i url)) urls !! i = Some (Pending h) →
  ∃ url, urls !! i = Some url ∧ h = chain i url.
Proof.
  rewrite list_lookup_imap. destruct (urls !! i) as [url|]; [|done].
  intros [= <-]. by exists url.
Qed.

(** At the end, whatever the store holds for the URL of a completed
    successful attempt was returned by a successful attempt on that URL. *)
Lemma connect_store_final urls sched w0 i url c :
  urls !! i = Some url → i ∈ sched →
  connect_reply net i (Some url) spdzApiRoot cid publicKey = Fulfilled c →
  ∃ j c',
    urls !! j = Some url ∧
    connect_reply net j (Some url) spdzApiRoot cid publicKey = Fulfilled c' ∧
    clientIds (run_handlers (imap (λ i url, Pending (chain i url)) urls)
                 sched [] w0).1 !! Some url = Some c'.
Proof.
  intros Hurl Hsched Hreply.
  set (ps := imap (λ i url, Pending (chain i url)) urls).
  assert (i ∈ (run_handlers ps sched [] w0).2.*1) as Hdone.
  { eapply run_handlers_covered; [done|].
    unfold ps. by rewrite list_lookup_imap, Hurl. }
  revert Hdone.
  apply (run_handlers_invariant ps sched (λ w d, i ∈ d.*1 →
    ∃ j c', urls !! j = Some url ∧
            connect_reply net j (Some url) spdzApiRoot cid publicKey = Fulfilled c' ∧
            clientIds w !! Some url = Some c')).
  - intros w d k h _ Hk _ IH. simpl.
    apply connect_promise_lookup in Hk as (urlk & Hk & ->).
    rewrite connect_chain_run. simpl. unfold connect_effect.
    rewrite fmap_app, elem_of_app. simpl. intros Hi.
    destruct (decide (urlk = url)) as [->|Hne].
    + destruct (connect_reply net k (Some url) _ _ _) as [ck|ex] eqn:Hck; simpl.
      * exists k, ck. by rewrite lookup_insert_eq.
      * destruct Hi as [Hi| ->%list_elem_of_singleton]; [by apply IH|].
        congruence.
    + assert (i ∈ d.*1) as Hd.
      { destruct Hi as [Hi| ->%list_elem_of_singleton]; [done|]. congruence. }
      destruct (IH Hd) as (j & c' & Hj & Hc' & Hst). exists j, c'.
      split_and!; [done..|].
      destruct (connect_reply net k (Some urlk) _ _ _); simpl; [|done].
      rewrite lookup_insert_ne; [done|congruence].
  - intros Hi. by apply elem_of_nil in Hi.
Qed.

(** Right after the attempt at position [i] has completed with success,
    the store maps its URL to the client id the proxy returned. *)
Lemma connect_store_at_completion urls before w0 i url c :
  urls !! i = Some url → i ∉ before →
  connect_reply net i (Some url) spdzApiRoot cid publicKey = Fulfilled c →
  clientIds (run_handlers (imap (λ i url, Pending (chain i url)) urls)
               (before ++ [i]) [] w0).1 !! Some url = Some c.
Proof.
  intros Hurl Hbefore Hreply. rewrite run_handlers_app.
  pose proof (run_handlers_scheduled
                (imap (λ i url, Pending (chain i url)) urls) before w0 i) as Hsch.
  destruct (run_handlers _ before [] w0) as [w1 d1]. simpl in *.
  rewrite list_lookup_imap, Hurl. simpl.
  case_bool_decide as Hd; [by apply Hsch in Hd as [? _]|].
  sync_unfold. rewrite connect_chain_run. simpl.
  unfold connect_effect. rewrite Hreply. simpl. by rewrite lookup_insert_eq.
Qed.
End connectToSPDZ.

(** C3. [connectToSPDZ] never rejects; its promise stays pending until the
    connect attempt of every position has completed, and then resolves with
    one result per URL, where the result at position [i] has id [i] and is
    [Connected] with the returned client id when the proxy accepted and
    [Failure] when it refused. The returned client id is stored: right after
    the attempt at position [i] completes the store maps its URL to that id,
    and at the end the store maps the URL to an id returned by a successful
    attempt on that URL. *)
Theorem connectToSPDZ_outcomes (net : ProxyTransport) (urls : list string)
    (apiRoot : string) (cid publicKey : JsString) (sched : list nat) (w : World) :
  let call := connectToSPDZ net urls apiRoot cid publicKey in
  (∀ e, settlement call sched w ≠ Some (Rejected e)) ∧
  (∀ i, i < length urls → i ∉ sched → settlement call sched w = None) ∧
  (completes sched (length urls) →
   ∃ outcomes,
     settlement call sched w = Some (Fulfilled outcomes) ∧
     length outcomes = length urls ∧
     ∀ i url, urls !! i = Some url →
       match connect_reply net i (Some url) apiRoot cid publicKey with
       | Fulfilled c =>
           outcomes !! i = Some (mkProxyResult i Connected (Some c)) ∧
           ∃ j c',
             urls !! j = Some url ∧
             connect_reply net j (Some url) apiRoot cid publicKey = Fulfilled c' ∧
             clientIds (world_after call sched w) !! Some url = Some c'
       | Rejected _ => outcomes !! i = Some (mkProxyResult i Failure None)
       end) ∧
  (∀ before i url c,
     urls !! i = Some url → i ∉ before →
     connect_reply net i (Some url) apiRoot cid publicKey = Fulfilled c →
     clientIds (world_after call (before ++ [i]) w) !! Some url = Some c).
Proof.
  intros call.
  assert (∀ s, exec call s w =
            (let r := run_handlers
                        (imap (λ i url, Pending (connect_chain net apiRoot cid publicKey i url)) urls)
                        s [] (mkWorld ∅ (trace w ++
                               imap (λ i url, ConnectCall (Some url) apiRoot cid publicKey) urls))
             in (r.1, Promise_all
                        (imap (λ i url, Pending (connect_chain net apiRoot cid publicKey i url)) urls)
                        r.2))) as Hexec.
  { intros s. unfold exec, call. sync_unfold. rewrite connectToSPDZ_sync.
    by destruct (run_handlers _ _ _ _). }
  pose proof (connect_settles net apiRoot cid publicKey urls) as Hss.
  unfold settlement, world_after. split_and!.
  - intros e He. rewrite Hexec in He. simpl in He.
    eapply Promise_all_Rejected_inv in He; [|done].
    by apply list_elem_of_fmap in He as (? & ? & _).
  - intros i Hi Hsched. rewrite Hexec. simpl.
    destruct (lookup_lt_is_Some_2 urls i Hi) as [url Hurl].
    eapply Promise_all_pending; [done| |done].
    by rewrite list_lookup_imap, Hurl.
  - intros Hsched. exists (imap (connect_outcome net apiRoot cid publicKey) urls).
    rewrite !Hexec. simpl. split_and!.
    + apply Promise_all_fulfilled; [done|by rewrite length_imap].
    + by rewrite length_imap.
    + intros i url Hurl. rewrite list_lookup_imap, Hurl. simpl.
      unfold connect_outcome.
      destruct (connect_reply net i (Some url) _ _ _) as [c|ex] eqn:Hreply; [|done].
      split; [done|].
      eapply connect_store_final; [done| |done].
      eapply completes_lookup; [done|]. by eapply lookup_lt_Some.
  - intros before i url c Hurl Hbefore Hreply. rewrite Hexec. simpl.
    by eapply connect_store_at_completion.
Qed.

Lemma concat_option_list {A B} (g : A → option B) (l : list A) :
  concat (imap (λ _ x, option_list (g x)) l) = omap g l.
Proof.
  induction l as [|x l IH]; [done|].
  simpl. unfold compose. rewrite IH. by destruct (g x).
Qed.

(** ** checkProxies *)

Section checkProxies.
Variable net : ProxyTransport.
Variable spdzApiRoot : string.

Local Abbreviation chain := (check_chain net spdzApiRoot).
Local Abbreviation promise := (check_promise net spdzApiRoot).
Local Abbreviation call := (check_call spdzApiRoot).
Local Abbreviation outcome := (check_outcome net spdzApiRoot).

Lemma check_chain_run index url c w :
  chain index url c w =
    (w, Fulfilled
          match check_reply net index (Some url) spdzApiRoot c with
          | Fulfilled _ => mkProxyResult index Connected None
          | Rejected _ => mkProxyResult index Disconnected None
          end).
Proof.
  unfold check_chain, then_, catch_, resolve. sync_unfold.
  by destruct (check_reply _ _ _ _ _).
Qed.

Lemma checkProxies_sync urls w :
  checkProxies net urls spdzApiRoot w =
    (mkWorld (clientIds w) (trace w ++ omap (call (clientIds w)) urls),
     Return_all (imap (promise (clientIds w)) urls)).
Proof.
  unfold checkProxies. sync_unfold.
  rewrite (Array_map_reads_only _
             (λ st url i, option_list (call st url))
             (λ st url i, promise st i url)).
  - by rewrite (concat_option_list (call (clientIds w))).
  - intros url i w'. unfold clientIdExists, getClientId, checkEngineConnection, emit.
    unfold check_call, check_promise. sync_unfold.
    destruct (clientIds w' !! Some url) as [c|] eqn:Hc; simpl.
    + by rewrite Hc.
    + destruct w'. simpl. by rewrite app_nil_r.
Qed.

Lemma check_settles store urls :
  Forall2 settles_as (imap (promise store) urls)
    (Fulfilled <$> imap (outcome store) urls).
Proof.
  apply Forall2_same_length_lookup. split; [by rewrite length_fmap, !length_imap|].
  intros i p s. rewrite list_lookup_fmap, !list_lookup_imap.
  destruct (urls !! i) as [url|]; [|done]. simpl. intros [= <-] [= <-].
  unfold check_promise, check_outcome.
  destruct (store !! Some url) as [c|]; simpl; [|done].
  intros w. by rewrite check_chain_run.
Qed.

Lemma check_handlers_world store urls sched w :
  (run_handlers (imap (promise store) urls) sched [] w).1 = w.
Proof.
  apply run_handlers_world. intros i h w'. rewrite list_lookup_imap.
  destruct (urls !! i) as [url|]; [|done]. simpl. unfold check_promise.
  destruct (store !! Some url); [|done]. intros [= <-].
  by rewrite check_chain_run.
Qed.

Lemma checkProxies_exec urls sched w :
  exec (checkProxies net urls spdzApiRoot) sched w =
    (mkWorld (clientIds w) (trace w ++ omap (call (clientIds w)) urls),
     Promise_all (imap (promise (clientIds w)) urls)
       (run_handlers (imap (promise (clientIds w)) urls) sched []
          (mkWorld (clientIds w) (trace w ++ omap (call (clientIds w)) urls))).2).
Proof.
  unfold exec. sync_unfold. rewrite checkProxies_sync.
  pose proof (check_handlers_world (clientIds w) urls sched
                (mkWorld (clientIds w) (trace w ++ omap (call (clientIds w)) urls)))
    as Hw.
  destruct (run_handlers _ _ _ _) as [w' d]. simpl in *. by subst w'.
Qed.
End checkProxies.

(** C6. [checkProxies] resolves, once every check has completed, with one
    result per URL in list order: [Failure] for a URL with no stored client
    id, for which no transport call is made, [Connected] where the check of
    the stored client id succeeds and [Disconnected] where it fails. The
    transport calls are exactly the checks of the URLs with a stored id. *)
Theorem checkProxies_outcomes (net : ProxyTransport) (urls : list string)
    (apiRoot : string) (sched : list nat) (w : World) :
  completes sched (length urls) →
  let call := checkProxies net urls apiRoot in
  ∃ outcomes calls,
    settlement call sched w = Some (Fulfilled outcomes) ∧
    length outcomes = length urls ∧
    trace (world_after call sched w) = trace w ++ calls ∧
    Forall (λ ev, is_transport ev = true) calls ∧
    ∀ i url, urls !! i = Some url →
      match clientIds w !! Some url with
      | None =>
          outcomes !! i = Some (mkProxyResult i Failure None) ∧
          ∀ ev, ev ∈ calls → event_url ev ≠ Some (Some url)
      | Some c =>
          CheckCall (Some url) apiRoot (Some c) ∈ calls ∧
          match check_reply net i (Some url) apiRoot (Some c) with
          | Fulfilled _ => outcomes !! i = Some (mkProxyResult i Connected None)
          | Rejected _ => outcomes !! i = Some (mkProxyResult i Disconnected None)
          end
      end.
Proof.
  intros Hsched call.
  exists (imap (check_outcome net apiRoot (clientIds w)) urls),
         (omap (check_call apiRoot (clientIds w)) urls).
  unfold settlement, world_after, call. rewrite checkProxies_exec. simpl.
  split_and!.
  - apply Promise_all_fulfilled; [apply check_settles|by rewrite length_imap].
  - by rewrite length_imap.
  - done.
  - apply Forall_forall. intros ev (url & _ & Hev)%list_elem_of_omap.
    unfold check_call in Hev. by destruct (clientIds w !! Some url); simplify_eq/=.
  - intros i url Hurl. rewrite list_lookup_imap, Hurl. simpl. unfold check_outcome.
    destruct (clientIds w !! Some url) as [c|] eqn:Hc.
    + split; [|by destruct (check_reply _ _ _ _ _)].
      apply list_elem_of_omap. exists url. split; [by eapply list_elem_of_lookup_2|].
      unfold check_call. by rewrite Hc.
    + split; [done|]. intros ev (url' & _ & Hev)%list_elem_of_omap.
      unfold check_call in Hev.
      destruct (clientIds w !! Some url') eqn:Hc'; simplify_eq/=. congruence.
Qed.

(** C10. [checkProxies] leaves the client id store as it found it, whatever
    the proxies answer and in whatever order. *)
Theorem checkProxies_store_unchanged (net : ProxyTransport) (urls : list string)
    (apiRoot : string) (sched : list nat) (w : World) :
  clientIds (world_after (checkProxies net urls apiRoot) sched w) = clientIds w.
Proof. unfold world_after. by rewrite checkProxies_exec. Qed.

(** ** disconnectFromSPDZ *)

Section disconnectFromSPDZ.
Variable net : ProxyTransport.
Variable spdzApiRoot : string.

Local Abbreviation chain := (disconnect_chain net spdzApiRoot).
Local Abbreviation promise := (disconnect_promise net spdzApiRoot).
Local Abbreviation call := (disconnect_call spdzApiRoot).

Lemma disconnect_chain_run index proxy c w :
  chain index proxy c w =
    (mkWorld (delete (proxy !! "url") (clientIds w)) (trace w),
     Fulfilled (mkProxyResult index Disconnected None)).
Proof.
  unfold disconnect_chain, then_, catch_, removeClientId, resolve. sync_unfold.
  by destruct (disconnect_reply _ _ _ _ _).
Qed.

Lemma disconnectFromSPDZ_sync proxies w :
  verifyRequiredKeys proxies "url" = true →
  disconnectFromSPDZ net proxies spdzApiRoot w =
    (mkWorld (clientIds w) (trace w ++ omap (call (clientIds w)) proxies),
     Return_all (imap (promise (clientIds w)) proxies)).
Proof.
  intros Hkeys. unfold disconnectFromSPDZ. rewrite Hkeys. simpl. sync_unfold.
  rewrite (Array_map_reads_only _
             (λ st proxy i, option_list (call st proxy))
             (λ st proxy i, promise st i proxy)).
  - by rewrite (concat_option_list (call (clientIds w))).
  - intros proxy i w'.
    unfold clientIdExists, getClientId, disconnectProxyFromEngine, emit.
    unfold disconnect_call, disconnect_promise. sync_unfold.
    destruct (clientIds w' !! (proxy !! "url")) as [c|] eqn:Hc; simpl.
    + by rewrite Hc.
    + destruct w'. simpl. by rewrite app_nil_r.
Qed.

Lemma disconnect_settles store proxies :
  Forall2 settles_as (imap (promise store) proxies)
    (Fulfilled <$> imap (λ i _, mkProxyResult i Disconnected None) proxies).
Proof.
  apply Forall2_same_length_lookup. split; [by rewrite length_fmap, !length_imap|].
  intros i p s. rewrite list_lookup_fmap, !list_lookup_imap.
  destruct (proxies !! i) as [proxy|]; [|done]. simpl. intros [= <-] [= <-].
  unfold disconnect_promise.
  destruct (store !! (proxy !! "url")) as [c|]; simpl; [|done].
  intros w. by rewrite disconnect_chain_run.
Qed.

(** Handlers only delete, and the handler of a position deletes the entry
    of its own endpoint. *)
Lemma disconnect_store_final store proxies sched w proxy :
  clientIds w = store →
  completes sched (length proxies) →
  proxy ∈ proxies →
  clientIds (run_handlers (imap (promise store) proxies) sched [] w).1
    !! (proxy !! "url") = None.
Proof.
  intros Hw Hsched [i Hi]%list_elem_of_lookup.
  set (ps := imap (promise store) proxies).
  assert (store !! (proxy !! "url") = None ∨ i ∈ (run_handlers ps sched [] w).2.*1)
    as Hcase.
  { destruct (store !! (proxy !! "url")) as [c|] eqn:Hc; [right|by left].
    eapply (run_handlers_covered _ _ _ _ _ (chain i proxy (Some c))).
    - apply (completes_lookup _ _ _ Hsched). by eapply lookup_lt_Some.
    - unfold ps. rewrite list_lookup_imap, Hi. simpl.
      unfold disconnect_promise. by rewrite Hc. }
  revert Hcase.
  apply (run_handlers_invariant ps sched (λ w' d,
    store !! (proxy !! "url") = None ∨ i ∈ d.*1 →
    clientIds w' !! (proxy !! "url") = None)).
  - intros w' d k h _ Hk _ IH. simpl. unfold ps in Hk.
    rewrite list_lookup_imap in Hk.
    destruct (proxies !! k) as [pk|] eqn:Hpk; [|done]. simpl in Hk.
    unfold disconnect_promise in Hk.
    destruct (store !! (pk !! "url")) as [c|]; [|done]. injection Hk as <-.
    rewrite disconnect_chain_run. simpl.
    rewrite fmap_app, elem_of_app. simpl. intros [Hnone|[Hd| ->%list_elem_of_singleton]].
    + apply lookup_delete_None. right. by apply IH; left.
    + apply lookup_delete_None. right. by apply IH; right.
    + rewrite Hi in Hpk. injection Hpk as <-. apply lookup_delete_eq.
  - rewrite Hw. intros [?|Hd]; [done|]. by apply elem_of_nil in Hd.
Qed.
End disconnectFromSPDZ.

(** C5. For a list in which every entry has a [url], [disconnectFromSPDZ]
    resolves, once every disconnect call has completed, with one result per
    entry in list order, each with status [Disconnected], and leaves no
    store entry for the endpoint of any entry, whatever the proxies
    answered. *)
Theorem disconnectFromSPDZ_outcomes (net : ProxyTransport) (proxies : list JsObject)
    (apiRoot : string) (sched : list nat) (w : World) :
  verifyRequiredKeys proxies "url" = true →
  completes sched (length proxies) →
  let call := disconnectFromSPDZ net proxies apiRoot in
  ∃ outcomes,
    settlement call sched w = Some (Fulfilled outcomes) ∧
    length outcomes = length proxies ∧
    (∀ i, i < length proxies → outcomes !! i = Some (mkProxyResult i Disconnected None)) ∧
    (∀ r, r ∈ outcomes → status r = Disconnected) ∧
    (∀ proxy, proxy ∈ proxies →
       clientIds (world_after call sched w) !! (proxy !! "url") = None).
Proof.
  intros Hkeys Hsched call.
  exists (imap (λ i _, mkProxyResult i Disconnected None) proxies).
  unfold settlement, world_after, call, exec. sync_unfold.
  rewrite disconnectFromSPDZ_sync by done.
  set (w1 := mkWorld _ _). set (ps := imap _ proxies).
  pose proof (Promise_all_fulfilled ps _ sched w1
                (disconnect_settles net apiRoot (clientIds w) proxies)) as Hall.
  pose proof (λ proxy, disconnect_store_final net apiRoot (clientIds w) proxies sched w1
                         proxy eq_refl Hsched) as Hstore.
  fold ps in Hstore. destruct (run_handlers ps sched [] w1) as [w2 d]. simpl in *.
  split_and!.
  - apply Hall. unfold ps. by rewrite length_imap.
  - by rewrite length_imap.
  - intros i [proxy Hi]%lookup_lt_is_Some_2. by rewrite list_lookup_imap, Hi.
  - intros r [i Hr]%list_elem_of_lookup. rewrite list_lookup_imap in Hr.
    destruct (proxies !! i); [|done]. by injection Hr as <-.
  - done.
Qed.

Lemma verifyRequiredKeys_true proxies key :
  verifyRequiredKeys proxies key = true ↔ ∀ proxy, proxy ∈ proxies → is_Some (proxy !! key).
Proof.
  unfold verifyRequiredKeys. rewrite forallb_forall.
  apply forall_proper. intros proxy.
  by rewrite list_elem_of_In, bool_decide_eq_true.
Qed.

Lemma verifyRequiredKeys_missing proxies key proxy :
  proxy ∈ proxies → proxy !! key = None → verifyRequiredKeys proxies key = false.
Proof.
  intros Hin Hnone. apply not_true_is_false. rewrite verifyRequiredKeys_true.
  intros Hall. destruct (Hall proxy Hin) as [? ?]. congruence.
Qed.

(** ** consumeDataFromProxies *)

Section consumeDataFromProxies.
Variable net : ProxyTransport.
Variable decrypt : JsString → Bytes → Settled Bytes.
Variables (spdzApiRoot : string) (encrypted : bool) (waitTimeoutMs : nat).

Local Abbreviation chain := (consume_chain net decrypt spdzApiRoot encrypted waitTimeoutMs).
Local Abbreviation promise := (consume_promise net decrypt spdzApiRoot encrypted waitTimeoutMs).
Local Abbreviation call := (consume_call spdzApiRoot waitTimeoutMs).
Local Abbreviation payload_of := (consume_payload decrypt encrypted).
Local Abbreviation settled := (consume_settled net decrypt spdzApiRoot encrypted waitTimeoutMs).

Lemma consume_chain_run index proxy c w :
  chain index proxy c w =
    (w, match consume_reply net index (proxy !! "url") spdzApiRoot c waitTimeoutMs with
        | Fulfilled binaryPayload => payload_of proxy binaryPayload
        | Rejected e => Rejected e
        end).
Proof.
  unfold consume_chain, consume_payload, then_, resolve. sync_unfold.
  destruct (consume_reply _ _ _ _ _ _); [|done]. by destruct encrypted.
Qed.

Lemma consumeDataFromProxies_sync proxies wait w :
  verifyRequiredKeys proxies "url" = true →
  default 0 wait = waitTimeoutMs →
  consumeDataFromProxies net decrypt proxies spdzApiRoot encrypted wait w =
    (mkWorld (clientIds w) (trace w ++ omap (call (clientIds w)) proxies),
     Return_all (imap (promise (clientIds w)) proxies)).
Proof.
  intros Hkeys Hwait. unfold consumeDataFromProxies. rewrite Hkeys, Hwait. simpl.
  sync_unfold.
  rewrite (Array_map_reads_only _
             (λ st proxy i, option_list (call st proxy))
             (λ st proxy i, promise st i proxy)).
  - by rewrite (concat_option_list (call (clientIds w))).
  - intros proxy i w'.
    unfold clientIdExists, getClientId, consumeDataFromProxy, emit.
    unfold consume_call, consume_promise. sync_unfold.
    destruct (clientIds w' !! (proxy !! "url")) as [c|] eqn:Hc; simpl.
    + by rewrite Hc.
    + destruct w'. simpl. by rewrite app_nil_r.
Qed.

Lemma consume_settles store proxies :
  Forall2 settles_as (imap (promise store) proxies)
    (imap (settled store) proxies).
Proof.
  apply Forall2_same_length_lookup. split; [by rewrite !length_imap|].
  intros i p s. rewrite !list_lookup_imap.
  destruct (proxies !! i) as [proxy|]; [|done]. simpl. intros [= <-] [= <-].
  unfold consume_promise, consume_settled.
  destruct (store !! (proxy !! "url")) as [c|]; simpl; [|done].
  intros w. by rewrite consume_chain_run.
Qed.

Lemma consume_handlers_world store proxies sched w :
  (run_handlers (imap (promise store) proxies) sched [] w).1 = w.
Proof.
  apply run_handlers_world. intros i h w'. rewrite list_lookup_imap.
  destruct (proxies !! i) as [proxy|]; [|done]. simpl. unfold consume_promise.
  destruct (store !! (proxy !! "url")); [|done]. intros [= <-].
  by rewrite consume_chain_run.
Qed.

Lemma consumeDataFromProxies_exec proxies wait sched w :
  verifyRequiredKeys proxies "url" = true →
  default 0 wait = waitTimeoutMs →
  exec (consumeDataFromProxies net decrypt proxies spdzApiRoot encrypted wait) sched w =
    (mkWorld (clientIds w) (trace w ++ omap (call (clientIds w)) proxies),
     Promise_all (imap (promise (clientIds w)) proxies)
       (run_handlers (imap (promise (clientIds w)) proxies) sched []
          (mkWorld (clientIds w) (trace w ++ omap (call (clientIds w)) proxies))).2).
Proof.
  intros Hkeys Hwait. unfold exec. sync_unfold.
  rewrite consumeDataFromProxies_sync by done.
  pose proof (consume_handlers_world (clientIds w) proxies sched
                (mkWorld (clientIds w) (trace w ++ omap (call (clientIds w)) proxies)))
    as Hw.
  destruct (run_handlers _ _ _ _) as [w' d]. simpl in *. by subst w'.
Qed.

Lemma consume_rejected_at_once store proxies :
  rejected_at_once (imap (promise store) proxies) = None ↔
  ∀ proxy, proxy ∈ proxies → is_Some (store !! (proxy !! "url")).
Proof.
  rewrite rejected_at_once_None. split.
  - intros Hno proxy [i Hi]%list_elem_of_lookup.
    destruct (store !! (proxy !! "url")) as [c|] eqn:Hc; [by eexists|].
    destruct (Hno (not_connected proxy)). apply list_elem_of_lookup. exists i.
    rewrite list_lookup_imap, Hi. simpl. unfold consume_promise. by rewrite Hc.
  - intros Hall e [i Hi]%list_elem_of_lookup. rewrite list_lookup_imap in Hi.
    destruct (proxies !! i) as [proxy|] eqn:Hp; [|done]. simpl in Hi.
    unfold consume_promise in Hi.
    destruct (Hall proxy) as [c Hc]; [by eapply list_elem_of_lookup_2|].
    by rewrite Hc in Hi.
Qed.
End consumeDataFromProxies.

(** C4. If the endpoint of any entry has no stored client id,
    [consumeDataFromProxies] rejects, whatever the other proxies answer and
    in whatever order: it never resolves with a list of payloads. *)
Theorem consumeDataFromProxies_needs_sessions (net : ProxyTransport)
    (decrypt : JsString → Bytes → Settled Bytes) (proxies : list JsObject)
    (apiRoot : string) (encrypted : bool) (wait : option nat)
    (sched : list nat) (w : World) (proxy : JsObject) :
  proxy ∈ proxies →
  clientIds w !! (proxy !! "url") = None →
  ∃ e, settlement (consumeDataFromProxies net decrypt proxies apiRoot encrypted wait)
         sched w = Some (Rejected e).
Proof.
  intros Hin Hnone. unfold settlement.
  destruct (verifyRequiredKeys proxies "url") eqn:Hkeys.
  - rewrite (consumeDataFromProxies_exec net decrypt apiRoot encrypted (default 0 wait))
      by done. simpl.
    destruct (rejected_at_once (imap (consume_promise net decrypt apiRoot encrypted
                (default 0 wait) (clientIds w)) proxies)) as [e|] eqn:Honce.
    + exists e. by apply Promise_all_rejected_at_once.
    + destruct (proj1 (consume_rejected_at_once _ _ _ _ _ _ _) Honce proxy Hin).
      congruence.
  - unfold exec, consumeDataFromProxies. rewrite Hkeys. simpl. by eexists.
Qed.

(** C2, as the code has it. For a list in which every entry has a [url],
    and once every consume call has completed, [consumeDataFromProxies]
    resolves with [payloads] exactly when every entry has a stored client id,
    every proxy answered with bytes, and the payload at each position is
    those bytes put through [decrypt] under that entry's own [encryptionKey]
    when the call's [encrypted] argument is true, and those bytes unchanged
    when it is false. *)
Theorem consumeDataFromProxies_payloads (net : ProxyTransport)
    (decrypt : JsString → Bytes → Settled Bytes) (proxies : list JsObject)
    (apiRoot : string) (encrypted : bool) (wait : option nat)
    (sched : list nat) (w : World) (payloads : list Bytes) :
  verifyRequiredKeys proxies "url" = true →
  completes sched (length proxies) →
  settlement (consumeDataFromProxies net decrypt proxies apiRoot encrypted wait) sched w
    = Some (Fulfilled payloads)
  ↔ length payloads = length proxies ∧
    ∀ i proxy, proxies !! i = Some proxy →
      ∃ c binaryPayload payload,
        clientIds w !! (proxy !! "url") = Some c ∧
        consume_reply net i (proxy !! "url") apiRoot (Some c) (default 0 wait)
          = Fulfilled binaryPayload ∧
        payloads !! i = Some payload ∧
        (if encrypted
         then decrypt (proxy !! "encryptionKey") binaryPayload
         else Fulfilled binaryPayload) = Fulfilled payload.
Proof.
  intros Hkeys Hsched. unfold settlement.
  rewrite (consumeDataFromProxies_exec net decrypt apiRoot encrypted (default 0 wait))
    by done. simpl.
  set (settled := consume_settled net decrypt apiRoot encrypted (default 0 wait) (clientIds w)).
  pose proof (consume_settles net decrypt apiRoot encrypted (default 0 wait)
                (clientIds w) proxies) as Hss.
  fold settled in Hss.
  assert (∀ i proxy payload, proxies !! i = Some proxy →
            settled i proxy = Fulfilled payload ↔
            ∃ c binaryPayload,
              clientIds w !! (proxy !! "url") = Some c ∧
              consume_reply net i (proxy !! "url") apiRoot (Some c) (default 0 wait)
                = Fulfilled binaryPayload ∧
              (if encrypted
               then decrypt (proxy !! "encryptionKey") binaryPayload
               else Fulfilled binaryPayload) = Fulfilled payload) as Hone.
  { intros i proxy payload _. unfold settled, consume_settled, consume_payload.
    destruct (clientIds w !! (proxy !! "url")) as [c|].
    - destruct (consume_reply net i _ _ _ _) as [b|e] eqn:Hb.
      + split; [intros Hpay; by exists c, b|].
        intros (c' & b' & [= <-] & Hb' & Hpay). rewrite Hb in Hb'. by injection Hb' as <-.
      + split; [done|]. intros (c' & b' & [= <-] & Hb' & _). congruence.
    - split; [done|]. by intros (c' & b' & ? & _). }
  split.
  - intros Hall. apply (Promise_all_Fulfilled_inv _ _ _ _ _ Hss) in Hall as [Heq _].
    split.
    { apply (f_equal length) in Heq. by rewrite length_imap, length_fmap in Heq. }
    intros i proxy Hp. apply (f_equal (λ l, l !! i)) in Heq.
    rewrite list_lookup_imap, Hp, list_lookup_fmap in Heq. simpl in Heq.
    destruct (payloads !! i) as [payload|] eqn:Hpay; [|done]. injection Heq as Heq.
    apply Hone in Heq as (c & b & ? & ? & ?); [|done]. by exists c, b, payload.
  - intros [Hlen Hall]. apply Promise_all_fulfilled; [|by rewrite length_imap].
    assert (imap settled proxies = Fulfilled <$> payloads) as <-; [|done].
    apply list_eq_same_length with (length proxies);
      [by rewrite length_fmap|by rewrite length_imap|].
    intros i s s' _. rewrite list_lookup_imap, list_lookup_fmap.
    destruct (proxies !! i) as [proxy|] eqn:Hp; [|done]. simpl. intros [= <-].
    destruct (Hall i proxy Hp) as (c & b & payload & Hc & Hb & -> & Hpay).
    simpl. intros [= <-]. apply Hone; [done|]. by exists c, b.
Qed.

(** C7, as the code has it. For a list in which every entry has a [url] and
    a stored client id: the call rejects with the reason, unchanged, of the
    first proxy whose promise rejects, so a no-data rejection reaches the
    caller as it is when no other proxy rejected before it; once every
    consume call has completed, one rejecting proxy is enough to reject the
    call; and whatever the call rejects with is the rejection of one of the
    proxies or what [decrypt] threw for one of them. *)
Theorem consumeDataFromProxies_rejection (net : ProxyTransport)
    (decrypt : JsString → Bytes → Settled Bytes) (proxies : list JsObject)
    (apiRoot : string) (encrypted : bool) (wait : option nat) (w : World) :
  verifyRequiredKeys proxies "url" = true →
  (∀ proxy, proxy ∈ proxies → is_Some (clientIds w !! (proxy !! "url"))) →
  let call := consumeDataFromProxies net decrypt proxies apiRoot encrypted wait in
  let reply i (proxy : JsObject) :=
    consume_reply net i (proxy !! "url") apiRoot (clientIds w !! (proxy !! "url"))
      (default 0 wait) in
  (∀ before i after proxy e,
     (∀ j pj, j ∈ before → proxies !! j = Some pj →
        ∃ binaryPayload payload,
          reply j pj = Fulfilled binaryPayload ∧
          (if encrypted
           then decrypt (pj !! "encryptionKey") binaryPayload
           else Fulfilled binaryPayload) = Fulfilled payload) →
     proxies !! i = Some proxy →
     reply i proxy = Rejected e →
     settlement call (before ++ i :: after) w = Some (Rejected e)) ∧
  (∀ sched i proxy e,
     completes sched (length proxies) →
     proxies !! i = Some proxy →
     reply i proxy = Rejected e →
     ∃ e', settlement call sched w = Some (Rejected e')) ∧
  (∀ sched e,
     settlement call sched w = Some (Rejected e) →
     ∃ i proxy,
       proxies !! i = Some proxy ∧
       (reply i proxy = Rejected e ∨
        ∃ binaryPayload,
          reply i proxy = Fulfilled binaryPayload ∧ encrypted = true ∧
          decrypt (proxy !! "encryptionKey") binaryPayload = Rejected e)).
Proof.
  intros Hkeys Hsessions call reply. unfold settlement, call.
  set (settled := consume_settled net decrypt apiRoot encrypted (default 0 wait) (clientIds w)).
  pose proof (consume_settles net decrypt apiRoot encrypted (default 0 wait)
                (clientIds w) proxies) as Hss.
  fold settled in Hss.
  assert (∀ i proxy, proxies !! i = Some proxy →
            settled i proxy =
              match reply i proxy with
              | Fulfilled b => if encrypted then decrypt (proxy !! "encryptionKey") b
                               else Fulfilled b
              | Rejected e => Rejected e
              end) as Hone.
  { intros i proxy Hp. unfold settled, consume_settled, consume_payload, reply.
    destruct (Hsessions proxy) as [c Hc]; [by eapply list_elem_of_lookup_2|].
    by rewrite Hc. }
  split_and!.
  - intros before i after proxy e Hbefore Hp Hreply.
    rewrite (consumeDataFromProxies_exec net decrypt apiRoot encrypted (default 0 wait))
      by done. simpl.
    eapply Promise_all_first_rejection; [done| | |].
    + by apply consume_rejected_at_once.
    + intros j e' Hj. rewrite list_lookup_imap.
      destruct (proxies !! j) as [pj|] eqn:Hpj; [|done]. simpl.
      rewrite (Hone j pj Hpj).
      destruct (Hbefore j pj Hj Hpj) as (b & payload & -> & ->). done.
    + rewrite list_lookup_imap, Hp. simpl. by rewrite (Hone i proxy Hp), Hreply.
  - intros sched i proxy e Hsched Hp Hreply.
    rewrite (consumeDataFromProxies_exec net decrypt apiRoot encrypted (default 0 wait))
      by done. simpl.
    eapply (Promise_all_rejected _ _ _ _ e); [done|by rewrite length_imap|].
    apply list_elem_of_lookup. exists i.
    rewrite list_lookup_imap, Hp. simpl. by rewrite (Hone i proxy Hp), Hreply.
  - intros sched e.
    rewrite (consumeDataFromProxies_exec net decrypt apiRoot encrypted (default 0 wait))
      by done. simpl.
    intros [i Hi]%(Promise_all_Rejected_inv _ _ _ _ _ Hss)%list_elem_of_lookup.
    rewrite list_lookup_imap in Hi.
    destruct (proxies !! i) as [proxy|] eqn:Hp; [|done]. simpl in Hi.
    injection Hi as Hi. rewrite (Hone i proxy Hp) in Hi. exists i, proxy.
    split; [done|]. destruct (reply i proxy) as [b|e'] eqn:Hr.
    + right. exists b. by destruct encrypted.
    + left. congruence.
Qed.

(** C8. If any entry of the proxy list has no [url], each of
    [disconnectFromSPDZ], [consumeDataFromProxies] and [sendInputsToProxies]
    returns a promise rejected with the validation error, and does so
    without touching the world: no transport call is made. *)
Theorem missing_url_rejected (net : ProxyTransport)
    (decrypt : JsString → Bytes → Settled Bytes)
    (Gfp : Type) (toNativeHexString : Gfp → string) (base64Encode : string → string)
    (JSON_stringify : list string → string)
    (proxies : list JsObject) (apiRoot : string) (encrypted : bool)
    (wait : option nat) (inputList : list Gfp) (w : World) (proxy : JsObject) :
  proxy ∈ proxies →
  proxy !! "url" = None →
  let e := new_Error "Each spdzProxyList entry must contain keys: url." in
  disconnectFromSPDZ net proxies apiRoot w = (w, Return_reject e) ∧
  consumeDataFromProxies net decrypt proxies apiRoot encrypted wait w
    = (w, Return_reject e) ∧
  sendInputsToProxies net Gfp toNativeHexString base64Encode JSON_stringify
    proxies apiRoot inputList w = (w, Return_reject e) ∧
  ∀ sched,
    exec (disconnectFromSPDZ net proxies apiRoot) sched w = (w, Some (Rejected e)) ∧
    exec (consumeDataFromProxies net decrypt proxies apiRoot encrypted wait) sched w
      = (w, Some (Rejected e)) ∧
    exec (sendInputsToProxies net Gfp toNativeHexString base64Encode JSON_stringify
            proxies apiRoot inputList) sched w = (w, Some (Rejected e)).
Proof.
  intros Hin Hurl e.
  pose proof (verifyRequiredKeys_missing proxies "url" proxy Hin Hurl) as Hkeys.
  unfold exec, disconnectFromSPDZ, consumeDataFromProxies, sendInputsToProxies.
  rewrite Hkeys. simpl. sync_unfold. done.
Qed.

(** ** sendInputsToProxies *)

Section sendInputsToProxies.
Variable net : ProxyTransport.
Variables (spdzApiRoot : string) (payload : string).

Local Abbreviation promise := (send_promise net spdzApiRoot payload).
Local Abbreviation call := (send_call spdzApiRoot payload).
Local Abbreviation settled := (send_settled net spdzApiRoot payload).

Lemma send_settles store proxies :
  Forall2 settles_as (imap (promise store) proxies)
    (imap (settled store) proxies).
Proof.
  apply Forall2_same_length_lookup. split; [by rewrite !length_imap|].
  intros i p s. rewrite !list_lookup_imap.
  destruct (proxies !! i) as [proxy|]; [|done]. simpl. intros [= <-] [= <-].
  unfold send_promise, send_settled.
  by destruct (store !! (proxy !! "url")) as [c|].
Qed.

Lemma send_handlers_world store proxies sched w :
  (run_handlers (imap (promise store) proxies) sched [] w).1 = w.
Proof.
  apply run_handlers_world. intros i h w'. rewrite list_lookup_imap.
  destruct (proxies !! i) as [proxy|]; [|done]. simpl. unfold send_promise.
  destruct (store !! (proxy !! "url")); [|done]. by intros [= <-].
Qed.

Lemma send_rejected_at_once store proxies i proxy :
  proxies !! i = Some proxy → store !! (proxy !! "url") = None →
  is_Some (rejected_at_once (imap (promise store) proxies)).
Proof.
  intros Hp Hc. apply (rejected_at_once_lookup _ i (not_connected proxy)).
  rewrite list_lookup_imap, Hp. simpl. unfold send_promise. by rewrite Hc.
Qed.
End sendInputsToProxies.

Section sendInputsToProxies_exec.
Variable net : ProxyTransport.
Variable Gfp : Type.
Variable toNativeHexString : Gfp → string.
Variable base64Encode : string → string.
Variable JSON_stringify : list string → string.
Variables (spdzApiRoot : string) (inputList : list Gfp).

Local Abbreviation payload :=
  (send_payload Gfp toNativeHexString base64Encode JSON_stringify inputList).

Lemma sendInputsToProxies_sync proxies w :
  verifyRequiredKeys proxies "url" = true →
  sendInputsToProxies net Gfp toNativeHexString base64Encode JSON_stringify
    proxies spdzApiRoot inputList w =
    (mkWorld (clientIds w)
       (trace w ++ omap (send_call spdzApiRoot payload (clientIds w)) proxies),
     Return_all (imap (send_promise net spdzApiRoot payload (clientIds w)) proxies)).
Proof.
  intros Hkeys. unfold sendInputsToProxies. rewrite Hkeys. simpl. sync_unfold.
  rewrite (Array_map_reads_only _
             (λ st proxy i, option_list (send_call spdzApiRoot payload st proxy))
             (λ st proxy i, send_promise net spdzApiRoot payload st i proxy)).
  - by rewrite (concat_option_list (send_call spdzApiRoot payload (clientIds w))).
  - intros proxy i w'.
    unfold clientIdExists, getClientId, sendDataToProxy, emit.
    unfold send_call, send_promise. sync_unfold.
    destruct (clientIds w' !! (proxy !! "url")) as [c|] eqn:Hc; simpl.
    + by rewrite Hc.
    + destruct w'. simpl. by rewrite app_nil_r.
Qed.

Lemma sendInputsToProxies_exec proxies sched w :
  verifyRequiredKeys proxies "url" = true →
  exec (sendInputsToProxies net Gfp toNativeHexString base64Encode JSON_stringify
          proxies spdzApiRoot inputList) sched w =
    (mkWorld (clientIds w)
       (trace w ++ omap (send_call spdzApiRoot payload (clientIds w)) proxies),
     Promise_all (imap (send_promise net spdzApiRoot payload (clientIds w)) proxies)
       (run_handlers (imap (send_promise net spdzApiRoot payload (clientIds w)) proxies)
          sched []
          (mkWorld (clientIds w)
             (trace w ++ omap (send_call spdzApiRoot payload (clientIds w)) proxies))).2).
Proof.
  intros Hkeys. unfold exec. sync_unfold. rewrite sendInputsToProxies_sync by done.
  pose proof (send_handlers_world net spdzApiRoot payload (clientIds w) proxies sched
                (mkWorld (clientIds w)
                   (trace w ++ omap (send_call spdzApiRoot payload (clientIds w)) proxies)))
    as Hw.
  destruct (run_handlers _ _ _ _) as [w' d]. simpl in *. by subst w'.
Qed.
End sendInputsToProxies_exec.

(** C9. For a list in which every entry has a [url], [sendInputsToProxies]
    encodes the input list once and sends that one string to every proxy
    with a stored client id, and to no other; it resolves only if every
    entry has a stored client id and every proxy has acknowledged, which in
    turn is enough once every send has completed; an entry without a stored
    client id rejects the call, and so does, once every send has completed,
    a proxy that refuses. *)
Theorem sendInputsToProxies_all_or_nothing (net : ProxyTransport)
    (Gfp : Type) (toNativeHexString : Gfp → string) (base64Encode : string → string)
    (JSON_stringify : list string → string)
    (proxies : list JsObject) (apiRoot : string) (inputList : list Gfp) (w : World) :
  verifyRequiredKeys proxies "url" = true →
  let call := sendInputsToProxies net Gfp toNativeHexString base64Encode
                JSON_stringify proxies apiRoot inputList in
  let payload :=
    JSON_stringify (map (λ gfpInput, base64Encode (toNativeHexString gfpInput)) inputList) in
  let ack i (proxy : JsObject) :=
    send_reply net i (proxy !! "url") apiRoot (clientIds w !! (proxy !! "url")) payload in
  (∀ sched,
     trace (world_after call sched w) =
       trace w ++ omap (λ proxy : JsObject,
                          c ← clientIds w !! (proxy !! "url");
                          Some (SendCall (proxy !! "url") apiRoot (Some c) payload))
                    proxies) ∧
  (∀ sched acks,
     settlement call sched w = Some (Fulfilled acks) →
     ∀ i proxy, proxies !! i = Some proxy →
       i ∈ sched ∧ is_Some (clientIds w !! (proxy !! "url")) ∧ ack i proxy = Fulfilled tt) ∧
  (∀ sched,
     completes sched (length proxies) →
     (∀ i proxy, proxies !! i = Some proxy →
        is_Some (clientIds w !! (proxy !! "url")) ∧ ack i proxy = Fulfilled tt) →
     settlement call sched w = Some (Fulfilled (replicate (length proxies) tt))) ∧
  (∀ sched proxy,
     proxy ∈ proxies →
     clientIds w !! (proxy !! "url") = None →
     ∃ e, settlement call sched w = Some (Rejected e)) ∧
  (∀ sched i proxy e,
     completes sched (length proxies) →
     proxies !! i = Some proxy →
     is_Some (clientIds w !! (proxy !! "url")) →
     ack i proxy = Rejected e →
     ∃ e', settlement call sched w = Some (Rejected e')).
Proof.
  intros Hkeys call payload ack. unfold settlement, world_after, call.
  pose proof (send_settles net apiRoot payload (clientIds w) proxies) as Hss.
  assert (∀ sched, exec (sendInputsToProxies net Gfp toNativeHexString base64Encode
                           JSON_stringify proxies apiRoot inputList) sched w =
            (mkWorld (clientIds w)
               (trace w ++ omap (send_call apiRoot payload (clientIds w)) proxies),
             Promise_all (imap (send_promise net apiRoot payload (clientIds w)) proxies)
               (run_handlers (imap (send_promise net apiRoot payload (clientIds w)) proxies)
                  sched []
                  (mkWorld (clientIds w)
                     (trace w ++ omap (send_call apiRoot payload (clientIds w)) proxies))).2))
    as Hexec.
  { intros sched. by apply sendInputsToProxies_exec. }
  assert (∀ i proxy c, clientIds w !! (proxy !! "url") = Some c →
            send_settled net apiRoot payload (clientIds w) i proxy = ack i proxy) as Hone.
  { intros i proxy c Hc. unfold send_settled, ack. by rewrite Hc. }
  split_and!.
  - intros sched. by rewrite Hexec.
  - intros sched acks. rewrite Hexec. simpl.
    intros [Heq Hsched]%(Promise_all_Fulfilled_inv _ _ _ _ _ Hss) i proxy Hp.
    apply (f_equal (λ l, l !! i)) in Heq.
    rewrite list_lookup_imap, Hp, list_lookup_fmap in Heq. simpl in Heq.
    destruct (acks !! i) as [[]|]; [|done]. injection Heq as Heq.
    unfold send_settled in Heq.
    destruct (clientIds w !! (proxy !! "url")) as [c|] eqn:Hc; [|done].
    split_and!; [|by eexists|unfold ack; by rewrite ?Hc].
    apply (Hsched i (mret (send_reply net i (proxy !! "url") apiRoot (Some c) payload))).
    rewrite list_lookup_imap, Hp. simpl. unfold send_promise. by rewrite Hc.
  - intros sched Hsched Hall. rewrite Hexec. simpl.
    apply Promise_all_fulfilled; [|by rewrite length_imap].
    assert (imap (send_settled net apiRoot payload (clientIds w)) proxies
            = Fulfilled <$> replicate (length proxies) ()) as <-; [|done].
    apply list_eq_same_length with (length proxies);
      [by rewrite length_fmap, length_replicate|by rewrite length_imap|].
    intros i s s' Hi. rewrite list_lookup_imap, list_lookup_fmap.
    rewrite lookup_replicate_2 by done.
    destruct (proxies !! i) as [proxy|] eqn:Hp; [|done]. simpl. intros [= <-] [= <-].
    destruct (Hall i proxy Hp) as [[c Hc] Hack]. by rewrite (Hone i proxy c Hc).
  - intros sched proxy [i Hp]%list_elem_of_lookup Hc. rewrite Hexec. simpl.
    destruct (send_rejected_at_once net apiRoot payload (clientIds w) proxies i proxy Hp Hc)
      as [e He].
    exists e. by apply Promise_all_rejected_at_once.
  - intros sched i proxy e Hsched Hp [c Hc] Hack. rewrite Hexec. simpl.
    eapply (Promise_all_rejected _ _ _ _ e); [done|by rewrite length_imap|].
    apply list_elem_of_lookup. exists i. rewrite list_lookup_imap, Hp. simpl.
    by rewrite (Hone i proxy c Hc), Hack.
Qed.

(** * The claims on sample data *)

Lemma completes_sample_3 : completes [2; 0; 1] 3.
Proof. unfold completes. simpl. repeat constructor. Defined.

Lemma completes_sample_2 : completes [1; 0] 2.
Proof. unfold completes. simpl. repeat constructor. Defined.

(** C1. On the empty list [allProxiesConnected] answers true: the guard
    reads [size], which an array does not have, so it never fires, and the
    count of connected entries, 0, equals the length, 0. *)
Theorem allProxiesConnected_empty : allProxiesConnected [] = true.
Proof. reflexivity. Qed.

(** The scenario of three endpoints of which the second refuses. *)
Lemma connectToSPDZ_outcomes_witness :
  completes [2; 0; 1] (length three_urls) ∧
  ∃ outcomes,
    settlement (connectToSPDZ faulty_net three_urls "/spdzapi" None None) [2; 0; 1]
      fresh_world = Some (Fulfilled outcomes) ∧
    length outcomes = 3 ∧
    outcomes !! 0 = Some (mkProxyResult 0 Connected (Some "generated")) ∧
    outcomes !! 1 = Some (mkProxyResult 1 Failure None) ∧
    outcomes !! 2 = Some (mkProxyResult 2 Connected (Some "generated")).
Proof.
  split; [exact completes_sample_3|].
  destruct (connectToSPDZ_outcomes faulty_net three_urls "/spdzapi" None None
              [2; 0; 1] fresh_world) as (_ & _ & Hresolved & _).
  destruct (Hresolved completes_sample_3) as (outcomes & Hsettled & Hlen & Hat).
  exists outcomes. split_and!; [exact Hsettled|exact Hlen| | |].
  - exact (proj1 (Hat 0 "http://spdzproxy0" eq_refl)).
  - exact (Hat 1 "http://spdzproxy1" eq_refl).
  - exact (proj1 (Hat 2 "http://spdzproxy2" eq_refl)).
Defined.

Lemma checkProxies_outcomes_witness :
  completes [2; 0; 1] (length three_urls) ∧
  ∃ outcomes,
    settlement (checkProxies faulty_net three_urls "/spdzapi") [2; 0; 1]
      half_connected_world = Some (Fulfilled outcomes) ∧
    outcomes !! 0 = Some (mkProxyResult 0 Connected None) ∧
    outcomes !! 1 = Some (mkProxyResult 1 Disconnected None) ∧
    outcomes !! 2 = Some (mkProxyResult 2 Failure None).
Proof.
  split; [exact completes_sample_3|].
  destruct (checkProxies_outcomes faulty_net three_urls "/spdzapi" [2; 0; 1]
              half_connected_world completes_sample_3)
    as (outcomes & calls & Hsettled & _ & _ & _ & Hat).
  exists outcomes. split_and!; [exact Hsettled| | |].
  - exact (proj2 (Hat 0 "http://spdzproxy0" eq_refl)).
  - exact (proj2 (Hat 1 "http://spdzproxy1" eq_refl)).
  - exact (proj1 (Hat 2 "http://spdzproxy2" eq_refl)).
Defined.

Lemma disconnectFromSPDZ_outcomes_witness :
  verifyRequiredKeys [proxy0; proxy1; proxy2] "url" = true ∧
  completes [2; 0; 1] 3 ∧
  ∃ outcomes,
    settlement (disconnectFromSPDZ faulty_net [proxy0; proxy1; proxy2] "/spdzapi")
      [2; 0; 1] half_connected_world = Some (Fulfilled outcomes) ∧
    (∀ r, r ∈ outcomes → status r = Disconnected) ∧
    clientIds (world_after (disconnectFromSPDZ faulty_net [proxy0; proxy1; proxy2] "/spdzapi")
                 [2; 0; 1] half_connected_world) !! (proxy1 !! "url") = None.
Proof.
  split; [reflexivity|]. split; [exact completes_sample_3|].
  destruct (disconnectFromSPDZ_outcomes faulty_net [proxy0; proxy1; proxy2] "/spdzapi"
              [2; 0; 1] half_connected_world eq_refl completes_sample_3)
    as (outcomes & Hsettled & _ & _ & Hstatus & Hstore).
  exists outcomes. split_and!; [exact Hsettled|exact Hstatus|].
  apply Hstore. apply list_elem_of_further, list_elem_of_here.
Defined.

Lemma consumeDataFromProxies_needs_sessions_witness :
  proxy2 ∈ [proxy0; proxy2] ∧
  clientIds half_connected_world !! (proxy2 !! "url") = None ∧
  ∃ e, settlement (consumeDataFromProxies steady_net sample_decrypt [proxy0; proxy2]
                     "/spdzapi" false None) [0; 1] half_connected_world
       = Some (Rejected e).
Proof.
  assert (proxy2 ∈ [proxy0; proxy2]) as Hin
    by apply list_elem_of_further, list_elem_of_here.
  split; [exact Hin|]. split; [reflexivity|].
  exact (consumeDataFromProxies_needs_sessions steady_net sample_decrypt
           [proxy0; proxy2] "/spdzapi" false None [0; 1] half_connected_world
           proxy2 Hin eq_refl).
Defined.

(** C2, against the spec's reading. With one and the same party record the
    payload is decrypted when the call's [encrypted] argument is true and
    left as fetched when it is false, so no flag on the record decides. *)
Lemma consume_toggle_not_per_party :
  ¬ ∃ flagged : JsObject → bool,
      ∀ encrypted : bool,
        ∃ payload,
          settlement (consumeDataFromProxies steady_net sample_decrypt [proxy0]
                        "/spdzapi" encrypted None) [0] connected_world
            = Some (Fulfilled [payload]) ∧
          per_party_payload sample_decrypt flagged proxy0 [x01; x02; x03]%byte
            = Fulfilled payload.
Proof.
  intros (flagged & Hflag).
  destruct (Hflag true) as (clear & Hclear & Hspec_true).
  destruct (Hflag false) as (raw & Hraw & Hspec_false).
  vm_compute in Hclear. vm_compute in Hraw.
  injection Hclear as <-. injection Hraw as <-.
  unfold per_party_payload in *. destruct (flagged proxy0).
  - vm_compute in Hspec_false. discriminate.
  - vm_compute in Hspec_true. discriminate.
Qed.

Lemma consumeDataFromProxies_payloads_witness :
  verifyRequiredKeys [proxy0; proxy1] "url" = true ∧
  completes [1; 0] 2 ∧
  settlement (consumeDataFromProxies steady_net sample_decrypt [proxy0; proxy1]
                "/spdzapi" true None) [1; 0] connected_world
    = Some (Fulfilled [[x02; x03]; [x02; x03]]%byte).
Proof.
  split; [reflexivity|]. split; [exact completes_sample_2|].
  apply (consumeDataFromProxies_payloads steady_net sample_decrypt [proxy0; proxy1]
           "/spdzapi" true None [1; 0] connected_world _ eq_refl completes_sample_2).
  split; [reflexivity|].
  intros [|[|i]] proxy Hproxy; [| |discriminate Hproxy]; injection Hproxy as <-.
  - exists "client0", [x01; x02; x03]%byte, [x02; x03]%byte. repeat split.
  - exists "client1", [x01; x02; x03]%byte, [x02; x03]%byte. repeat split.
Defined.

(** C7, against the spec's reading. The proxy at position 1 has no data yet,
    but the one at position 0 fails first: the caller gets the failure of
    position 0, which is no no-data signal. *)
Lemma no_data_masked_by_earlier_failure :
  ¬ no_data_surfaces faulty_net sample_decrypt [proxy0; proxy1; proxy2]
      "/spdzapi" false None [0; 1; 2] connected_world.
Proof.
  intros Hclaim.
  destruct (Hclaim 1 proxy1 no_content eq_refl eq_refl eq_refl) as (e & Hsettled & Hclass).
  vm_compute in Hsettled. injection Hsettled as <-. discriminate Hclass.
Qed.

Lemma sessions_of_connected_world :
  ∀ proxy, proxy ∈ [proxy0; proxy1; proxy2] →
           is_Some (clientIds connected_world !! (proxy !! "url")).
Proof.
  intros proxy Hin. apply list_elem_of_In in Hin. simpl in Hin.
  destruct Hin as [<-|[<-|[<-|[]]]]; eexists; reflexivity.
Defined.

Lemma consumeDataFromProxies_rejection_witness :
  verifyRequiredKeys [proxy0; proxy1; proxy2] "url" = true ∧
  (∀ proxy, proxy ∈ [proxy0; proxy1; proxy2] →
            is_Some (clientIds connected_world !! (proxy !! "url"))) ∧
  settlement (consumeDataFromProxies faulty_net sample_decrypt [proxy0; proxy1; proxy2]
                "/spdzapi" false None) ([2] ++ 1 :: [0]) connected_world
    = Some (Rejected no_content).
Proof.
  split; [reflexivity|]. split; [exact sessions_of_connected_world|].
  destruct (consumeDataFromProxies_rejection faulty_net sample_decrypt
              [proxy0; proxy1; proxy2] "/spdzapi" false None connected_world
              eq_refl sessions_of_connected_world) as (Hfirst & _ & _).
  apply (Hfirst [2] 1 [0] proxy1 no_content); [|reflexivity|reflexivity].
  intros j pj Hj Hpj. apply list_elem_of_In in Hj. simpl in Hj.
  destruct Hj as [<-|[]]. injection Hpj as <-.
  exists [x01; x02; x03]%byte, [x01; x02; x03]%byte. split; reflexivity.
Defined.

Lemma missing_url_rejected_witness :
  proxy_without_url ∈ [proxy0; proxy_without_url] ∧
  proxy_without_url !! "url" = None ∧
  ∀ sched,
    exec (sendInputsToProxies steady_net string (λ s, s) (λ s, s) sample_stringify
            [proxy0; proxy_without_url] "/spdzapi" ["2a"]) sched connected_world
      = (connected_world, Some (Rejected missing_url)).
Proof.
  assert (proxy_without_url ∈ [proxy0; proxy_without_url]) as Hin
    by apply list_elem_of_further, list_elem_of_here.
  split; [exact Hin|]. split; [reflexivity|].
  intros sched.
  destruct (missing_url_rejected steady_net sample_decrypt string (λ s, s) (λ s, s)
              sample_stringify [proxy0; proxy_without_url] "/spdzapi" false None
              ["2a"] connected_world proxy_without_url Hin eq_refl)
    as (_ & _ & _ & Hexec).
  exact (proj2 (proj2 (Hexec sched))).
Defined.

Lemma sendInputsToProxies_all_or_nothing_witness :
  verifyRequiredKeys [proxy0; proxy1] "url" = true ∧
  completes [1; 0] 2 ∧
  settlement (sendInputsToProxies steady_net string (λ s, s) (λ s, s) sample_stringify
                [proxy0; proxy1] "/spdzapi" ["2a"; "ff"]) [1; 0] connected_world
    = Some (Fulfilled [(); ()]) ∧
  trace (world_after (sendInputsToProxies steady_net string (λ s, s) (λ s, s)
                        sample_stringify [proxy0; proxy1] "/spdzapi" ["2a"; "ff"])
           [1; 0] connected_world)
    = [SendCall (Some "http://spdzproxy0") "/spdzapi" (Some "client0") "[2a,ff]";
       SendCall (Some "http://spdzproxy1") "/spdzapi" (Some "client1") "[2a,ff]"].
Proof.
  split; [reflexivity|]. split; [exact completes_sample_2|].
  destruct (sendInputsToProxies_all_or_nothing steady_net string (λ s, s) (λ s, s)
              sample_stringify [proxy0; proxy1] "/spdzapi" ["2a"; "ff"] connected_world
              eq_refl) as (Htrace & _ & Hall & _ & _).
  split.
  - apply (Hall [1; 0] completes_sample_2).
    intros [|[|i]] proxy Hproxy; [| |discriminate Hproxy]; injection Hproxy as <-;
      (split; [eexists; reflexivity|reflexivity]).
  - exact (Htrace [1; 0]).
Defined.

(** * Further properties of the aggregated functions *)

(** ** connectToSPDZ, continued *)

Section connectToSPDZ_more.
Variable net : ProxyTransport.
Variables (spdzApiRoot : string) (cid publicKey : JsString).

Local Abbreviation chain := (connect_chain net spdzApiRoot cid publicKey).
Local Abbreviation outcome := (connect_outcome net spdzApiRoot cid publicKey).
Local Abbreviation connects :=
  (map (λ url : string, ConnectCall (Some url) spdzApiRoot cid publicKey)).

Lemma imap_const_map {A B} (f : A → B) (l : list A) : imap (λ _, f) l = map f l.
Proof. induction l as [|x l IH]; [done|]. simpl. by rewrite <- IH. Qed.

Lemma connectToSPDZ_exec urls sched w :
  exec (connectToSPDZ net urls spdzApiRoot cid publicKey) sched w =
    (let r := run_handlers (imap (λ i url, Pending (chain i url)) urls) sched []
                (mkWorld ∅ (trace w ++ connects urls))
     in (r.1, Promise_all (imap (λ i url, Pending (chain i url)) urls) r.2)).
Proof.
  unfold exec. sync_unfold. rewrite connectToSPDZ_sync.
  rewrite (imap_const_map (λ url, ConnectCall (Some url) spdzApiRoot cid publicKey)).
  by destruct (run_handlers _ _ _ _).
Qed.

(** Whatever the handlers leave in the store was returned by a completed
    successful attempt on that URL. *)
Lemma connect_store_sound urls sched w0 k c :
  clientIds w0 = ∅ →
  clientIds (run_handlers (imap (λ i url, Pending (chain i url)) urls) sched [] w0).1
    !! k = Some c →
  ∃ i url,
    k = Some url ∧ urls !! i = Some url ∧ i ∈ sched ∧
    connect_reply net i (Some url) spdzApiRoot cid publicKey = Fulfilled c.
Proof.
  intros Hempty. revert k c.
  apply (run_handlers_invariant (imap (λ i url, Pending (chain i url)) urls) sched
           (λ w _, ∀ k c, clientIds w !! k = Some c →
              ∃ i url, k = Some url ∧ urls !! i = Some url ∧ i ∈ sched ∧
                       connect_reply net i (Some url) spdzApiRoot cid publicKey
                         = Fulfilled c)).
  - intros w d j h Hj Hh _ IH k c. simpl.
    apply connect_promise_lookup in Hh as (url & Hurl & ->).
    rewrite connect_chain_run. simpl. unfold connect_effect.
    destruct (connect_reply net j (Some url) _ _ _) as [cj|ex] eqn:Hreply; simpl;
      [|by apply IH].
    destruct (decide (k = Some url)) as [->|Hne].
    + rewrite lookup_insert_eq. intros [= <-]. by exists j, url.
    + rewrite lookup_insert_ne by done. by apply IH.
  - intros k c. by rewrite Hempty, lookup_empty.
Qed.

(** The handlers add nothing to the trace but a log line per failure. *)
Lemma connect_trace urls sched w0 :
  ∃ logs,
    trace (run_handlers (imap (λ i url, Pending (chain i url)) urls) sched [] w0).1
      = trace w0 ++ logs ∧
    Forall (λ ev, ∃ detail,
              ev = DebugLog "Unable to successfully run connection setup." detail) logs.
Proof.
  apply (run_handlers_invariant (imap (λ i url, Pending (chain i url)) urls) sched
           (λ w _, ∃ logs, trace w = trace w0 ++ logs ∧
              Forall (λ ev, ∃ detail,
                ev = DebugLog "Unable to successfully run connection setup." detail) logs)).
  - intros w d j h _ Hh _ (logs & Htrace & Hlogs). simpl.
    apply connect_promise_lookup in Hh as (url & Hurl & ->).
    rewrite connect_chain_run. simpl. unfold connect_effect.
    destruct (connect_reply net j (Some url) _ _ _) as [cj|ex]; simpl;
      [by exists logs|].
    eexists (logs ++ [_]). rewrite Htrace, <- app_assoc. split; [done|].
    apply Forall_app. split; [done|]. apply Forall_singleton. by eexists.
  - exists []. by rewrite app_nil_r.
Qed.

Lemma connect_store_exact urls sched w0 i url :
  clientIds w0 = ∅ → NoDup urls → i ∈ sched → urls !! i = Some url →
  clientIds (run_handlers (imap (λ i url, Pending (chain i url)) urls) sched [] w0).1
    !! Some url =
  match connect_reply net i (Some url) spdzApiRoot cid publicKey with
  | Fulfilled c => Some c
  | Rejected _ => None
  end.
Proof.
  intros Hempty Hnodup Hsched Hurl.
  destruct (connect_reply net i (Some url) _ _ _) as [c|ex] eqn:Hreply.
  - destruct (connect_store_final net spdzApiRoot cid publicKey urls sched w0 i url c
                Hurl Hsched Hreply) as (j & c' & Hj & Hc' & Hstore).
    rewrite (NoDup_lookup _ _ _ _ Hnodup Hj Hurl) in Hc'. congruence.
  - apply eq_None_not_Some. intros [c Hc].
    apply connect_store_sound in Hc as (j & url' & [= <-] & Hj & _ & Hc'); [|done].
    rewrite (NoDup_lookup _ _ _ _ Hnodup Hj Hurl) in Hc'. congruence.
Qed.
End connectToSPDZ_more.

(** X1. After [connectToSPDZ], under any completion order, the store holds
    nothing but client ids returned by completed successful attempts of this
    call, each under the URL it was returned for: what was stored before the
    call is gone. *)
Theorem connectToSPDZ_store_is_fresh (net : ProxyTransport) (urls : list string)
    (apiRoot : string) (cid publicKey : JsString) (sched : list nat) (w : World)
    (k : JsString) (c : string) :
  clientIds (world_after (connectToSPDZ net urls apiRoot cid publicKey) sched w) !! k
    = Some c →
  ∃ i url,
    k = Some url ∧ urls !! i = Some url ∧ i ∈ sched ∧
    connect_reply net i (Some url) apiRoot cid publicKey = Fulfilled c.
Proof.
  unfold world_after. rewrite connectToSPDZ_exec. simpl.
  by apply connect_store_sound.
Qed.

(** X2. [connectToSPDZ] calls every URL of the list once, in list order and
    with the same client id and public key, whatever the proxies answer;
    all it adds to the trace besides is a log line per failed attempt. *)
Theorem connectToSPDZ_calls (net : ProxyTransport) (urls : list string)
    (apiRoot : string) (cid publicKey : JsString) (sched : list nat) (w : World) :
  ∃ logs,
    trace (world_after (connectToSPDZ net urls apiRoot cid publicKey) sched w)
      = trace w ++ map (λ url, ConnectCall (Some url) apiRoot cid publicKey) urls ++ logs ∧
    Forall (λ ev, is_transport ev = false) logs.
Proof.
  unfold world_after. rewrite connectToSPDZ_exec. simpl.
  destruct (connect_trace net apiRoot cid publicKey urls sched
              (mkWorld ∅
                 (trace w ++ map (λ url, ConnectCall (Some url) apiRoot cid publicKey) urls)))
    as (logs & Htrace & Hlogs).
  exists logs. rewrite Htrace. simpl. rewrite <- app_assoc. split; [done|].
  eapply Forall_impl; [done|]. by intros ev [detail ->].
Qed.

(** X3. Once every attempt has completed, [allProxiesConnected] of what
    [connectToSPDZ] resolves with is true exactly when every attempt
    succeeded; for the empty URL list it is true. *)
Theorem allProxiesConnected_after_connect (net : ProxyTransport) (urls : list string)
    (apiRoot : string) (cid publicKey : JsString) (sched : list nat) (w : World) :
  completes sched (length urls) →
  ∃ outcomes,
    settlement (connectToSPDZ net urls apiRoot cid publicKey) sched w
      = Some (Fulfilled outcomes) ∧
    (allProxiesConnected outcomes = true ↔
     ∀ i url, urls !! i = Some url →
       ∃ c, connect_reply net i (Some url) apiRoot cid publicKey = Fulfilled c).
Proof.
  intros Hsched. exists (imap (connect_outcome net apiRoot cid publicKey) urls).
  unfold settlement. rewrite connectToSPDZ_exec. simpl. split.
  - apply Promise_all_fulfilled; [apply connect_settles|by rewrite length_imap].
  - rewrite allProxiesConnected_spec, Forall_lookup. split.
    + intros Hall i url Hurl.
      specialize (Hall i (connect_outcome net apiRoot cid publicKey i url)).
      rewrite list_lookup_imap, Hurl in Hall. specialize (Hall eq_refl).
      unfold connect_outcome in Hall.
      destruct (connect_reply net i (Some url) _ _ _) as [c|ex]; [by exists c|done].
    + intros Hall i r. rewrite list_lookup_imap.
      destruct (urls !! i) as [url|] eqn:Hurl; [|done]. intros [= <-].
      destruct (Hall i url Hurl) as [c Hc]. unfold connect_outcome. by rewrite Hc.
Qed.

(** X4. With no URL listed twice, and once every attempt has completed, the
    store after [connectToSPDZ] maps the URL of each position to the client
    id its proxy returned, and has no entry for a URL whose proxy refused:
    the completion order does not matter. *)
Theorem connectToSPDZ_store_distinct (net : ProxyTransport) (urls : list string)
    (apiRoot : string) (cid publicKey : JsString) (sched : list nat) (w : World)
    (i : nat) (url : string) :
  NoDup urls →
  completes sched (length urls) →
  urls !! i = Some url →
  clientIds (world_after (connectToSPDZ net urls apiRoot cid publicKey) sched w)
    !! Some url =
  match connect_reply net i (Some url) apiRoot cid publicKey with
  | Fulfilled c => Some c
  | Rejected _ => None
  end.
Proof.
  intros Hnodup Hsched Hurl. unfold world_after. rewrite connectToSPDZ_exec. simpl.
  apply connect_store_exact; [done..| |done].
  eapply completes_lookup; [done|]. by eapply lookup_lt_Some.
Qed.

(** X5. Connect, then check, with no URL listed twice and every call
    completed: [checkProxies] sends to each proxy that accepted the very
    client id that proxy returned on connect, and reports [Failure], without
    a call, for each proxy that refused. *)
Theorem checkProxies_after_connect (net : ProxyTransport) (urls : list string)
    (apiRoot : string) (cid publicKey : JsString) (s1 s2 : list nat) (w : World) :
  NoDup urls →
  completes s1 (length urls) →
  completes s2 (length urls) →
  let w1 := world_after (connectToSPDZ net urls apiRoot cid publicKey) s1 w in
  let check := checkProxies net urls apiRoot in
  ∃ outcomes calls,
    settlement check s2 w1 = Some (Fulfilled outcomes) ∧
    trace (world_after check s2 w1) = trace w1 ++ calls ∧
    ∀ i url, urls !! i = Some url →
      match connect_reply net i (Some url) apiRoot cid publicKey with
      | Fulfilled c =>
          CheckCall (Some url) apiRoot (Some c) ∈ calls ∧
          outcomes !! i =
            Some (mkProxyResult i
                    match check_reply net i (Some url) apiRoot (Some c) with
                    | Fulfilled _ => Connected
                    | Rejected _ => Disconnected
                    end None)
      | Rejected _ =>
          outcomes !! i = Some (mkProxyResult i Failure None) ∧
          ∀ ev, ev ∈ calls → event_url ev ≠ Some (Some url)
      end.
Proof.
  intros Hnodup Hs1 Hs2 w1 check.
  assert (∀ i url, urls !! i = Some url →
            clientIds w1 !! Some url =
              match connect_reply net i (Some url) apiRoot cid publicKey with
              | Fulfilled c => Some c
              | Rejected _ => None
              end) as Hstore.
  { intros i url Hurl. unfold w1, world_after. rewrite connectToSPDZ_exec. simpl.
    apply connect_store_exact; [done..| |done].
    eapply completes_lookup; [done|]. by eapply lookup_lt_Some. }
  exists (imap (check_outcome net apiRoot (clientIds w1)) urls),
         (omap (check_call apiRoot (clientIds w1)) urls).
  unfold settlement, world_after, check. rewrite checkProxies_exec. simpl.
  split_and!; [|done|].
  - apply Promise_all_fulfilled; [apply check_settles|by rewrite length_imap].
  - intros i url Hurl. rewrite list_lookup_imap, Hurl. simpl.
    unfold check_outcome. pose proof (Hstore i url Hurl) as Hc.
    destruct (connect_reply net i (Some url) _ _ _) as [c|ex]; rewrite Hc.
    + split; [|by destruct (check_reply _ _ _ _ _)].
      apply list_elem_of_omap. exists url. split; [by eapply list_elem_of_lookup_2|].
      unfold check_call. by rewrite Hc.
    + split; [done|]. intros ev (url' & _ & Hev)%list_elem_of_omap.
      unfold check_call in Hev.
      destruct (clientIds w1 !! Some url') eqn:Hc'; simplify_eq/=. congruence.
Qed.

(** ** Promises settled from the start *)

Section settled_from_the_start.
Context {A : Type}.
Implicit Types (ps : list (Promise A)).

Lemma run_handlers_none_pending ps sched w :
  (∀ i h, ps !! i ≠ Some (Pending h)) →
  run_handlers ps sched [] w = (w, []).
Proof.
  intros Hnone.
  pose proof (run_handlers_world ps sched w) as Hw.
  pose proof (run_handlers_scheduled ps sched w) as Hd.
  destruct (run_handlers ps sched [] w) as [w' d]. simpl in *. f_equal.
  - apply Hw. intros i h w'' Hp. by destruct (Hnone i h).
  - destruct d as [|[i s] d]; [done|].
    destruct (Hd i) as (_ & h & Hh); [apply list_elem_of_here|]. by destruct (Hnone i h).
Qed.

Lemma Promise_all_resolved (vs : list A) d :
  rejected_later d = None →
  Promise_all (Promise_resolve <$> vs) d = Some (Fulfilled vs).
Proof.
  intros Hlater. unfold Promise_all. rewrite Hlater.
  assert (rejected_at_once (Promise_resolve <$> vs) = None) as ->
    by (induction vs; [done|by simpl]).
  assert (mapM (λ v, v) (imap (element_value d) (Promise_resolve <$> vs)) = Some vs)
    as ->; [|done].
  apply mapM_Some, Forall2_same_length_lookup.
  split; [by rewrite length_imap, length_fmap|].
  intros i x v. rewrite list_lookup_imap, list_lookup_fmap.
  destruct (vs !! i); [|done]. simpl. by intros [= <-] [= <-].
Qed.

Lemma rejected_at_once_app ps1 ps2 :
  rejected_at_once ps1 = None →
  rejected_at_once (ps1 ++ ps2) = rejected_at_once ps2.
Proof.
  induction ps1 as [|p ps1 IH]; [done|]. simpl. by destruct p.
Qed.
End settled_from_the_start.

(** ** disconnectFromSPDZ, continued *)

Section disconnectFromSPDZ_more.
Variable net : ProxyTransport.
Variable spdzApiRoot : string.

Local Abbreviation promise := (disconnect_promise net spdzApiRoot).
Local Abbreviation call := (disconnect_call spdzApiRoot).

Lemma disconnect_promise_lookup store proxies i h :
  imap (promise store) proxies !! i = Some (Pending h) →
  ∃ proxy c, proxies !! i = Some proxy ∧ store !! (proxy !! "url") = Some c ∧
             h = disconnect_chain net spdzApiRoot i proxy (Some c).
Proof.
  rewrite list_lookup_imap. destruct (proxies !! i) as [proxy|]; [|done]. simpl.
  unfold disconnect_promise. destruct (store !! (proxy !! "url")) as [c|] eqn:Hc; [|done].
  intros [= <-]. by exists proxy, c.
Qed.

(** The handlers only delete, only entries of listed endpoints, and leave
    the trace alone. *)
Lemma disconnect_handlers_frame store proxies sched w :
  let w' := (run_handlers (imap (promise store) proxies) sched [] w).1 in
  trace w' = trace w ∧
  (∀ k c, clientIds w' !! k = Some c → clientIds w !! k = Some c) ∧
  (∀ k, (∀ proxy, proxy ∈ proxies → proxy !! "url" ≠ k) →
        clientIds w' !! k = clientIds w !! k).
Proof.
  apply (run_handlers_invariant (imap (promise store) proxies) sched
           (λ w' _, trace w' = trace w ∧
              (∀ k c, clientIds w' !! k = Some c → clientIds w !! k = Some c) ∧
              (∀ k, (∀ proxy, proxy ∈ proxies → proxy !! "url" ≠ k) →
                    clientIds w' !! k = clientIds w !! k))); [|done].
  intros w' d j h _ Hh _ (Htrace & Hsub & Hframe).
  apply disconnect_promise_lookup in Hh as (proxy & c & Hproxy & _ & ->).
  rewrite disconnect_chain_run. simpl. split_and!; [done| |].
  - intros k c' [_ Hk]%lookup_delete_Some. by apply Hsub.
  - intros k Hk. rewrite lookup_delete_ne; [by apply Hframe|].
    apply Hk. by eapply list_elem_of_lookup_2.
Qed.

Lemma disconnectFromSPDZ_exec proxies sched w :
  verifyRequiredKeys proxies "url" = true →
  exec (disconnectFromSPDZ net proxies spdzApiRoot) sched w =
    (let r := run_handlers (imap (promise (clientIds w)) proxies) sched []
                (mkWorld (clientIds w) (trace w ++ omap (call (clientIds w)) proxies))
     in (r.1, Promise_all (imap (promise (clientIds w)) proxies) r.2)).
Proof.
  intros Hkeys. unfold exec. sync_unfold. rewrite disconnectFromSPDZ_sync by done.
  by destruct (run_handlers _ _ _ _).
Qed.

(** With no session for any entry, nothing is pending. *)
Lemma disconnect_promise_no_session store proxies :
  (∀ proxy, proxy ∈ proxies → store !! (proxy !! "url") = None) →
  imap (promise store) proxies
    = Promise_resolve <$> imap (λ i _, mkProxyResult i Disconnected None) proxies ∧
  omap (call store) proxies = [].
Proof.
  intros Hnone. split.
  - apply list_eq. intros i. rewrite list_lookup_fmap, !list_lookup_imap.
    destruct (proxies !! i) as [proxy|] eqn:Hp; [|done]. simpl.
    unfold disconnect_promise. rewrite Hnone; [done|by eapply list_elem_of_lookup_2].
  - induction proxies as [|p l IH]; [done|]. simpl. unfold disconnect_call at 1.
    rewrite Hnone by apply list_elem_of_here. simpl. apply IH.
    intros proxy Hin. apply Hnone. by apply list_elem_of_further.
Qed.
End disconnectFromSPDZ_more.

(** X6. [disconnectFromSPDZ] only ever removes entries, under any completion
    order and for any list: what the store holds afterwards it held before,
    and the entry of an endpoint that is not in the list is left as it
    was. *)
Theorem disconnectFromSPDZ_frame (net : ProxyTransport) (proxies : list JsObject)
    (apiRoot : string) (sched : list nat) (w : World) :
  let w' := world_after (disconnectFromSPDZ net proxies apiRoot) sched w in
  (∀ k c, clientIds w' !! k = Some c → clientIds w !! k = Some c) ∧
  (∀ k, (∀ proxy, proxy ∈ proxies → proxy !! "url" ≠ k) →
        clientIds w' !! k = clientIds w !! k).
Proof.
  unfold world_after. destruct (verifyRequiredKeys proxies "url") eqn:Hkeys.
  - rewrite disconnectFromSPDZ_exec by done. simpl.
    destruct (disconnect_handlers_frame net apiRoot (clientIds w) proxies sched
                (mkWorld (clientIds w)
                   (trace w ++ omap (disconnect_call apiRoot (clientIds w)) proxies)))
      as (_ & Hsub & Hframe).
    split; [exact Hsub|exact Hframe].
  - unfold exec, disconnectFromSPDZ. rewrite Hkeys. simpl. by sync_unfold.
Qed.

(** X7. For a list in which every entry has a [url], [disconnectFromSPDZ]
    calls the proxy of every entry whose endpoint has a stored client id,
    with that id, in list order and before any answer is in, and makes no
    other call: an endpoint listed twice is called twice. *)
Theorem disconnectFromSPDZ_calls (net : ProxyTransport) (proxies : list JsObject)
    (apiRoot : string) (sched : list nat) (w : World) :
  verifyRequiredKeys proxies "url" = true →
  trace (world_after (disconnectFromSPDZ net proxies apiRoot) sched w) =
    trace w ++ omap (λ proxy : JsObject,
                       c ← clientIds w !! (proxy !! "url");
                       Some (DisconnectCall (proxy !! "url") apiRoot (Some c)))
                 proxies.
Proof.
  intros Hkeys. unfold world_after. rewrite disconnectFromSPDZ_exec by done. simpl.
  by destruct (disconnect_handlers_frame net apiRoot (clientIds w) proxies sched
                 (mkWorld (clientIds w)
                    (trace w ++ omap (disconnect_call apiRoot (clientIds w)) proxies)))
    as (-> & _ & _).
Qed.

(** X8. Disconnecting twice: after a completed [disconnectFromSPDZ], a
    second call on the same list makes no transport call, leaves the world
    as it is, and resolves at once with [Disconnected] for every entry. *)
Theorem disconnectFromSPDZ_twice (net : ProxyTransport) (proxies : list JsObject)
    (apiRoot : string) (s1 s2 : list nat) (w : World) :
  verifyRequiredKeys proxies "url" = true →
  completes s1 (length proxies) →
  let w1 := world_after (disconnectFromSPDZ net proxies apiRoot) s1 w in
  exec (disconnectFromSPDZ net proxies apiRoot) s2 w1 =
    (w1, Some (Fulfilled (imap (λ i _, mkProxyResult i Disconnected None) proxies))).
Proof.
  intros Hkeys Hs1 w1.
  assert (∀ proxy, proxy ∈ proxies → clientIds w1 !! (proxy !! "url") = None) as Hnone.
  { intros proxy Hin. unfold w1, world_after.
    rewrite disconnectFromSPDZ_exec by done. simpl.
    by apply disconnect_store_final. }
  rewrite disconnectFromSPDZ_exec by done.
  destruct (disconnect_promise_no_session net apiRoot (clientIds w1) proxies Hnone)
    as [-> ->].
  rewrite run_handlers_none_pending.
  - simpl. rewrite app_nil_r, Promise_all_resolved by done. by destruct w1.
  - intros i h. rewrite list_lookup_fmap. by destruct (_ !! i).
Qed.

(** ** consumeDataFromProxies and sendInputsToProxies, continued *)

(** The first entry whose promise is rejected from the start decides. *)
Lemma rejected_at_once_first {A X} (f : nat → X → Promise A) before p after e :
  (∀ i q e', q ∈ before → f i q ≠ Promise_reject e') →
  (∀ i, f i p = Promise_reject e) →
  rejected_at_once (imap f (before ++ p :: after)) = Some e.
Proof.
  revert f. induction before as [|q before IH]; intros f Hbefore Hp; simpl.
  - by rewrite (Hp 0).
  - destruct (f 0 q) as [a|e'|h] eqn:Hq.
    + apply IH; [|intros i; apply Hp].
      intros i q' e' Hin. apply Hbefore. by apply list_elem_of_further.
    + destruct (Hbefore 0 q e'); [apply list_elem_of_here|done].
    + apply IH; [|intros i; apply Hp].
      intros i q' e' Hin. apply Hbefore. by apply list_elem_of_further.
Qed.

Lemma not_connected_message (proxy : JsObject) u :
  proxy !! "url" = Some u →
  not_connected proxy = new_Error ("Not connected to SPDZ for proxy " +:+ u +:+ ".").
Proof. intros Hu. unfold not_connected. by rewrite Hu. Qed.

Lemma verifyRequiredKeys_lookup proxies key proxy :
  verifyRequiredKeys proxies key = true → proxy ∈ proxies → is_Some (proxy !! key).
Proof. rewrite verifyRequiredKeys_true. auto. Qed.

Lemma consume_first_missing net decrypt apiRoot encrypted wait store before p after :
  (∀ q, q ∈ before → is_Some (store !! (q !! "url"))) →
  store !! (p !! "url") = None →
  rejected_at_once
    (imap (consume_promise net decrypt apiRoot encrypted wait store) (before ++ p :: after))
    = Some (not_connected p).
Proof.
  intros Hbefore Hp. apply rejected_at_once_first.
  - intros i q e' Hin. unfold consume_promise.
    destruct (Hbefore q Hin) as [c ->]. done.
  - intros i. unfold consume_promise. by rewrite Hp.
Qed.

Lemma send_first_missing net apiRoot payload store before p after :
  (∀ q, q ∈ before → is_Some (store !! (q !! "url"))) →
  store !! (p !! "url") = None →
  rejected_at_once (imap (send_promise net apiRoot payload store) (before ++ p :: after))
    = Some (not_connected p).
Proof.
  intros Hbefore Hp. apply rejected_at_once_first.
  - intros i q e' Hin. unfold send_promise.
    destruct (Hbefore q Hin) as [c ->]. done.
  - intros i. unfold send_promise. by rewrite Hp.
Qed.

Lemma omap_no_session {E} (f : JsObject → string → E) (store : gmap JsString string)
    (proxies : list JsObject) :
  (∀ proxy, proxy ∈ proxies → store !! (proxy !! "url") = None) →
  omap (λ proxy : JsObject, c ← store !! (proxy !! "url"); Some (f proxy c)) proxies = [].
Proof.
  intros Hnone. induction proxies as [|p l IH]; [done|]. simpl.
  rewrite Hnone by apply list_elem_of_here. simpl. apply IH.
  intros proxy Hin. apply Hnone. by apply list_elem_of_further.
Qed.

(** X9. [consumeDataFromProxies] never changes the store, and for a list in
    which every entry has a [url] it calls the proxy of every entry whose
    endpoint has a stored client id, in list order, whatever becomes of the
    call as a whole: when another entry has no session the caller gets a
    rejection, but the connected proxies have been asked for their data all
    the same. *)
Theorem consumeDataFromProxies_calls (net : ProxyTransport)
    (decrypt : JsString → Bytes → Settled Bytes) (proxies : list JsObject)
    (apiRoot : string) (encrypted : bool) (wait : option nat)
    (sched : list nat) (w : World) :
  let call := consumeDataFromProxies net decrypt proxies apiRoot encrypted wait in
  clientIds (world_after call sched w) = clientIds w ∧
  (verifyRequiredKeys proxies "url" = true →
   trace (world_after call sched w) =
     trace w ++ omap (λ proxy : JsObject,
                        c ← clientIds w !! (proxy !! "url");
                        Some (ConsumeCall (proxy !! "url") apiRoot (Some c) (default 0 wait)))
                  proxies).
Proof.
  intros call. unfold world_after, call.
  destruct (verifyRequiredKeys proxies "url") eqn:Hkeys.
  - rewrite (consumeDataFromProxies_exec net decrypt apiRoot encrypted (default 0 wait))
      by done.
    done.
  - split; [|done]. unfold exec, consumeDataFromProxies. rewrite Hkeys. simpl.
    by sync_unfold.
Qed.

(** X10. For a list in which every entry has a [url], if some endpoint has
    no stored client id then [consumeDataFromProxies] rejects, under every
    completion order, with the error that names the URL of the first such
    entry. *)
Theorem consumeDataFromProxies_first_missing (net : ProxyTransport)
    (decrypt : JsString → Bytes → Settled Bytes) (before after : list JsObject)
    (p : JsObject) (apiRoot : string) (encrypted : bool) (wait : option nat)
    (sched : list nat) (w : World) :
  verifyRequiredKeys (before ++ p :: after) "url" = true →
  (∀ q, q ∈ before → is_Some (clientIds w !! (q !! "url"))) →
  clientIds w !! (p !! "url") = None →
  ∃ u,
    p !! "url" = Some u ∧
    settlement (consumeDataFromProxies net decrypt (before ++ p :: after) apiRoot
                  encrypted wait) sched w
      = Some (Rejected (new_Error ("Not connected to SPDZ for proxy " +:+ u +:+ "."))).
Proof.
  intros Hkeys Hbefore Hp.
  destruct (verifyRequiredKeys_lookup _ _ p Hkeys) as [u Hu];
    [apply elem_of_app; right; apply list_elem_of_here|].
  exists u. split; [done|]. unfold settlement.
  rewrite (consumeDataFromProxies_exec net decrypt apiRoot encrypted (default 0 wait))
    by done.
  simpl. rewrite <- (not_connected_message p u Hu).
  apply Promise_all_rejected_at_once. by apply consume_first_missing.
Qed.


(** X12. After a completed [disconnectFromSPDZ], [consumeDataFromProxies]
    and [sendInputsToProxies] on the same list reach no proxy: each rejects
    at once with the not-connected error of the first entry and leaves the
    world as it is. *)
Theorem nothing_sent_after_disconnect (net : ProxyTransport)
    (decrypt : JsString → Bytes → Settled Bytes)
    (Gfp : Type) (toNativeHexString : Gfp → string) (base64Encode : string → string)
    (JSON_stringify : list string → string)
    (p : JsObject) (rest : list JsObject) (apiRoot : string) (encrypted : bool)
    (wait : option nat) (inputList : list Gfp) (s1 s2 : list nat) (w : World) :
  verifyRequiredKeys (p :: rest) "url" = true →
  completes s1 (length (p :: rest)) →
  let w1 := world_after (disconnectFromSPDZ net (p :: rest) apiRoot) s1 w in
  exec (consumeDataFromProxies net decrypt (p :: rest) apiRoot encrypted wait) s2 w1
    = (w1, Some (Rejected (not_connected p))) ∧
  exec (sendInputsToProxies net Gfp toNativeHexString base64Encode JSON_stringify
          (p :: rest) apiRoot inputList) s2 w1
    = (w1, Some (Rejected (not_connected p))).
Proof.
  intros Hkeys Hs1 w1.
  assert (∀ proxy, proxy ∈ p :: rest → clientIds w1 !! (proxy !! "url") = None) as Hnone.
  { intros proxy Hin. unfold w1, world_after.
    rewrite disconnectFromSPDZ_exec by done.
    exact (disconnect_store_final net apiRoot (clientIds w) (p :: rest) s1
             (mkWorld (clientIds w)
                (trace w ++ omap (disconnect_call apiRoot (clientIds w)) (p :: rest)))
             proxy eq_refl Hs1 Hin). }
  assert (clientIds w1 !! (p !! "url") = None) as Hp by apply Hnone, list_elem_of_here.
  split.
  - rewrite (consumeDataFromProxies_exec net decrypt apiRoot encrypted (default 0 wait))
      by done.
    unfold consume_call.
    rewrite (omap_no_session (λ proxy c, ConsumeCall (proxy !! "url") apiRoot (Some c)
                                (default 0 wait))) by done.
    rewrite app_nil_r. f_equal; [by destruct w1|].
    apply Promise_all_rejected_at_once.
    apply (consume_first_missing _ _ _ _ _ _ []); [|done].
    intros q Hq. by apply elem_of_nil in Hq.
  - rewrite sendInputsToProxies_exec by done.
    unfold send_call.
    rewrite (omap_no_session (λ proxy c, SendCall (proxy !! "url") apiRoot (Some c) _))
      by done.
    rewrite app_nil_r. f_equal; [by destruct w1|].
    apply Promise_all_rejected_at_once.
    apply (send_first_missing _ _ _ _ []); [|done].
    intros q Hq. by apply elem_of_nil in Hq.
Qed.

(** ** allProxiesConnected, continued *)

(** X13. [allProxiesConnected] is true exactly when every entry of the list
    has status [Connected], whatever its other fields; so it is true of the
    empty list, and of a concatenation exactly when it is true of both
    parts. *)
Theorem allProxiesConnected_every (l l' : list ProxyResult) :
  (allProxiesConnected l = true ↔ ∀ r, r ∈ l → status r = Connected) ∧
  allProxiesConnected (l ++ l') = allProxiesConnected l && allProxiesConnected l'.
Proof.
  split.
  - by rewrite allProxiesConnected_spec, Forall_forall.
  - apply eq_true_iff_eq.
    rewrite andb_true_iff, !allProxiesConnected_spec. apply Forall_app.
Qed.

(** ** The Millionaires program: proofs *)









Lemma joined_memory_cons (m : Memory) (c : Client) (cs : list Client) :
  joined_memory m (c :: cs) = joined_memory (joined_memory m [c]) cs.
Proof. done. Qed.













(** ** The further properties on sample data *)

Lemma three_urls_NoDup : NoDup three_urls.
Proof. by apply (bool_decide_unpack _). Defined.

Lemma connectToSPDZ_store_is_fresh_witness :
  clientIds (world_after (connectToSPDZ faulty_net three_urls "/spdzapi" None None)
               [2; 0; 1] connected_world) !! Some "http://spdzproxy0" = Some "generated" ∧
  ∃ i url,
    Some "http://spdzproxy0" = Some url ∧ three_urls !! i = Some url ∧ i ∈ [2; 0; 1] ∧
    connect_reply faulty_net i (Some url) "/spdzapi" None None = Fulfilled "generated".
Proof.
  split; [reflexivity|].
  exact (connectToSPDZ_store_is_fresh faulty_net three_urls "/spdzapi" None None
           [2; 0; 1] connected_world (Some "http://spdzproxy0") "generated" eq_refl).
Defined.

Lemma allProxiesConnected_after_connect_witness :
  completes [2; 0; 1] (length three_urls) ∧
  ∃ outcomes,
    settlement (connectToSPDZ steady_net three_urls "/spdzapi" (Some "mine") None)
      [2; 0; 1] fresh_world = Some (Fulfilled outcomes) ∧
    (allProxiesConnected outcomes = true ↔
     ∀ i url, three_urls !! i = Some url →
       ∃ c, connect_reply steady_net i (Some url) "/spdzapi" (Some "mine") None
              = Fulfilled c).
Proof.
  split; [exact completes_sample_3|].
  exact (allProxiesConnected_after_connect steady_net three_urls "/spdzapi"
           (Some "mine") None [2; 0; 1] fresh_world completes_sample_3).
Defined.

Lemma connectToSPDZ_store_distinct_witness :
  NoDup three_urls ∧
  completes [2; 0; 1] (length three_urls) ∧
  three_urls !! 1 = Some "http://spdzproxy1" ∧
  clientIds (world_after (connectToSPDZ faulty_net three_urls "/spdzapi" None None)
               [2; 0; 1] connected_world) !! Some "http://spdzproxy1" = None.
Proof.
  split; [exact three_urls_NoDup|]. split; [exact completes_sample_3|].
  split; [reflexivity|].
  exact (connectToSPDZ_store_distinct faulty_net three_urls "/spdzapi" None None
           [2; 0; 1] connected_world 1 "http://spdzproxy1"
           three_urls_NoDup completes_sample_3 eq_refl).
Defined.

Lemma checkProxies_after_connect_witness :
  NoDup three_urls ∧
  completes [2; 0; 1] (length three_urls) ∧
  ∃ outcomes,
    settlement (checkProxies faulty_net three_urls "/spdzapi") [2; 0; 1]
      (world_after (connectToSPDZ faulty_net three_urls "/spdzapi" None None)
         [2; 0; 1] fresh_world) = Some (Fulfilled outcomes) ∧
    outcomes !! 0 = Some (mkProxyResult 0 Connected None) ∧
    outcomes !! 1 = Some (mkProxyResult 1 Failure None).
Proof.
  split; [exact three_urls_NoDup|]. split; [exact completes_sample_3|].
  destruct (checkProxies_after_connect faulty_net three_urls "/spdzapi" None None
              [2; 0; 1] [2; 0; 1] fresh_world three_urls_NoDup
              completes_sample_3 completes_sample_3)
    as (outcomes & calls & Hsettled & _ & Hat).
  exists outcomes. split_and!; [exact Hsettled| |].
  - exact (proj2 (Hat 0 "http://spdzproxy0" eq_refl)).
  - exact (proj1 (Hat 1 "http://spdzproxy1" eq_refl)).
Defined.

Lemma disconnectFromSPDZ_frame_witness :
  (∀ proxy, proxy ∈ [proxy0; proxy1] → proxy !! "url" ≠ Some "http://spdzproxy2") ∧
  clientIds (world_after (disconnectFromSPDZ faulty_net [proxy0; proxy1] "/spdzapi")
               [1; 0] connected_world) !! Some "http://spdzproxy2" = Some "client2".
Proof.
  assert (∀ proxy, proxy ∈ [proxy0; proxy1] →
                   proxy !! "url" ≠ Some "http://spdzproxy2") as Hother.
  { intros proxy Hin. apply list_elem_of_In in Hin. simpl in Hin.
    destruct Hin as [<-|[<-|[]]]; discriminate. }
  split; [exact Hother|].
  exact (proj2 (disconnectFromSPDZ_frame faulty_net [proxy0; proxy1] "/spdzapi" [1; 0]
                  connected_world) (Some "http://spdzproxy2") Hother).
Defined.

Lemma disconnectFromSPDZ_calls_witness :
  verifyRequiredKeys [proxy0; proxy2; proxy0] "url" = true ∧
  trace (world_after (disconnectFromSPDZ steady_net [proxy0; proxy2; proxy0] "/spdzapi")
           [2; 0; 1] half_connected_world) =
    [DisconnectCall (Some "http://spdzproxy0") "/spdzapi" (Some "client0");
     DisconnectCall (Some "http://spdzproxy0") "/spdzapi" (Some "client0")].
Proof.
  split; [reflexivity|].
  exact (disconnectFromSPDZ_calls steady_net [proxy0; proxy2; proxy0] "/spdzapi"
           [2; 0; 1] half_connected_world eq_refl).
Defined.

Lemma disconnectFromSPDZ_twice_witness :
  verifyRequiredKeys [proxy0; proxy1] "url" = true ∧
  completes [1; 0] (length [proxy0; proxy1]) ∧
  (exec (disconnectFromSPDZ faulty_net [proxy0; proxy1] "/spdzapi") []
     (world_after (disconnectFromSPDZ faulty_net [proxy0; proxy1] "/spdzapi") [1; 0]
        connected_world)).2
    = Some (Fulfilled [mkProxyResult 0 Disconnected None; mkProxyResult 1 Disconnected None]).
Proof.
  split; [reflexivity|]. split; [exact completes_sample_2|].
  exact (f_equal snd
           (disconnectFromSPDZ_twice faulty_net [proxy0; proxy1] "/spdzapi" [1; 0] []
              connected_world eq_refl completes_sample_2)).
Defined.

Lemma consumeDataFromProxies_calls_witness :
  verifyRequiredKeys [proxy0; proxy2; proxy1] "url" = true ∧
  trace (world_after (consumeDataFromProxies steady_net sample_decrypt
                        [proxy0; proxy2; proxy1] "/spdzapi" false (Some 2000))
           [0; 1; 2] half_connected_world) =
    [ConsumeCall (Some "http://spdzproxy0") "/spdzapi" (Some "client0") 2000;
     ConsumeCall (Some "http://spdzproxy1") "/spdzapi" (Some "client1") 2000].
Proof.
  split; [reflexivity|].
  exact (proj2 (consumeDataFromProxies_calls steady_net sample_decrypt
                  [proxy0; proxy2; proxy1] "/spdzapi" false (Some 2000) [0; 1; 2]
                  half_connected_world) eq_refl).
Defined.

Lemma proxy0_has_session :
  ∀ q, q ∈ [proxy0] → is_Some (clientIds half_connected_world !! (q !! "url")).
Proof.
  intros q Hin. apply list_elem_of_In in Hin. simpl in Hin.
  destruct Hin as [<-|[]]. eexists. reflexivity.
Defined.

Lemma consumeDataFromProxies_first_missing_witness :
  verifyRequiredKeys ([proxy0] ++ proxy2 :: [proxy1]) "url" = true ∧
  (∀ q, q ∈ [proxy0] → is_Some (clientIds half_connected_world !! (q !! "url"))) ∧
  clientIds half_connected_world !! (proxy2 !! "url") = None ∧
  ∃ u,
    proxy2 !! "url" = Some u ∧
    settlement (consumeDataFromProxies steady_net sample_decrypt
                  ([proxy0] ++ proxy2 :: [proxy1]) "/spdzapi" false None)
      [0; 1; 2] half_connected_world
      = Some (Rejected (new_Error ("Not connected to SPDZ for proxy " +:+ u +:+ "."))).
Proof.
  split; [reflexivity|]. split; [exact proxy0_has_session|]. split; [reflexivity|].
  exact (consumeDataFromProxies_first_missing steady_net sample_decrypt [proxy0] [proxy1]
           proxy2 "/spdzapi" false None [0; 1; 2] half_connected_world
           eq_refl proxy0_has_session eq_refl).
Defined.


Lemma nothing_sent_after_disconnect_witness :
  verifyRequiredKeys (proxy0 :: [proxy1]) "url" = true ∧
  completes [1; 0] (length (proxy0 :: [proxy1])) ∧
  (exec (consumeDataFromProxies steady_net sample_decrypt (proxy0 :: [proxy1])
           "/spdzapi" true None) [0; 1]
     (world_after (disconnectFromSPDZ steady_net (proxy0 :: [proxy1]) "/spdzapi") [1; 0]
        connected_world)).2
    = Some (Rejected (not_connected proxy0)).
Proof.
  split; [reflexivity|]. split; [exact completes_sample_2|].
  exact (f_equal snd
           (proj1 (nothing_sent_after_disconnect steady_net sample_decrypt string
                     (λ s, s) (λ s, s) sample_stringify proxy0 [proxy1] "/spdzapi" true
                     None ["2a"] [1; 0] [0; 1] connected_world eq_refl
                     completes_sample_2))).
Defined.

Lemma allProxiesConnected_every_witness :
  (∀ r, r ∈ [mkProxyResult 0 Connected (Some "a"); mkProxyResult 1 Connected None] →
        status r = Connected) ∧
  allProxiesConnected [mkProxyResult 0 Connected (Some "a"); mkProxyResult 1 Connected None]
    = true.
Proof.
  assert (∀ r, r ∈ [mkProxyResult 0 Connected (Some "a"); mkProxyResult 1 Connected None] →
               status r = Connected) as Hall.
  { intros r Hin. apply list_elem_of_In in Hin. simpl in Hin.
    destruct Hin as [<-|[<-|[]]]; reflexivity. }
  split; [exact Hall|].
  exact (proj2 (proj1 (allProxiesConnected_every
                         [mkProxyResult 0 Connected (Some "a");
                          mkProxyResult 1 Connected None] [])) Hall).
Defined.





